(** * Flood fill by breadth-first search (floodfill.py)

    A shallow embedding of the three fill functions of [floodfill.py]
    ([perform_flood_fill], [flood_fill_diagonal], [flood_fill_with_boundary])
    and the proofs of their contract: which cells are rewritten, what is
    returned, when the call raises [IndexError].

    Python values are embedded as follows:
    - the grid, a [List[List[str]]], is embedded twice. Its rows are list
      objects, and one row object may stand at several positions of the
      outer list; the module [Store] embeds the functions over a heap of
      row objects and covers every grid. The definitions outside of
      [Store] take the grid as a [list (list string)], a list of rows of
      values: they are the functions on the grids whose rows are distinct
      objects, and are proved to agree with [Store] there
      ([perform_flood_fill_refines] and its siblings). The functions
      mutate the grid in place, so every function returns the final
      contents next to its outcome;
    - row and column numbers are Python integers, embedded as [Z];
    - [queue] (a [deque] used with [popleft] and [append]) is a list whose
      head is the left end; [visited] (a [set] of pairs) is a [gset];
    - an exception leaves the function with the grid as it is at that moment;
    - the functions are embedded as called without animation ([animate]
      false or no [visualizer], the defaults): the call of
      [visualizer.animate_fill] (lines 65-66, 144-145, 222-223) is then
      skipped. With animation the hook prints the grid and sleeps
      (visualizer.py, [animate_fill]); an exception it raises ends the call
      after a write, which is outside of this embedding. *)

From stdpp Require Import base gmap strings list fin_sets.

Local Open Scope Z_scope.

(** ** Python lists and the grid *)

Abbreviation coord := (Z * Z)%type.
Abbreviation grid := (list (list string)).

(** [l[i]]: an index in [-len, len) is valid, a negative one counts from the
    end; anything else raises [IndexError] (here [None]). *)
Definition py_getitem {A} (l : list A) (i : Z) : option A :=
  let n := Z.of_nat (length l) in
  if bool_decide (0 ≤ i) then l !! Z.to_nat i
  else if bool_decide (- n ≤ i) then l !! Z.to_nat (n + i)
  else None.

(** [l[i] = x]. *)
Definition py_setitem {A} (l : list A) (i : Z) (x : A) : option (list A) :=
  let n := Z.of_nat (length l) in
  if bool_decide (0 ≤ i < n) then Some (<[Z.to_nat i := x]> l)
  else if bool_decide (- n ≤ i < 0) then Some (<[Z.to_nat (n + i) := x]> l)
  else None.

(** [grid[row][col]]. *)
Definition grid_get (g : grid) (row col : Z) : option string :=
  r ← py_getitem g row; py_getitem r col.

(** [grid[row][col] = v]: the row object is updated in place, so the outer
    list holds the updated row afterwards. *)
Definition grid_set (g : grid) (row col : Z) (v : string) : option grid :=
  r ← py_getitem g row;
  r' ← py_setitem r col v;
  py_setitem g row r'.

(** [height = len(grid)] and [width = len(grid[0]) if height > 0 else 0]. *)
Definition height (g : grid) : Z := Z.of_nat (length g).

Definition width (g : grid) : Z :=
  if bool_decide (height g > 0)
  then match py_getitem g 0 with
       | Some r => Z.of_nat (length r)
       | None => 0
       end
  else 0.

(** ** Outcomes *)

Inductive outcome : Type :=
  | Returned (cells_filled : Z)
  | IndexError.

(** The final contents of the grid and how the call ended. *)
Abbreviation result := (grid * outcome)%type.

(** Truth value of the optional argument [boundary_shape]: [None] and the
    empty string are false, every other string is true. *)
Definition truthy (boundary_shape : option string) : bool :=
  match boundary_shape with
  | None => false
  | Some s => negb (bool_decide (s = ""%string))
  end.

(** ** The direction tables *)

Definition cardinal_directions : list (Z * Z) :=
  [(-1, 0); (1, 0); (0, 1); (0, -1)].

Definition diagonal_directions : list (Z * Z) :=
  [(-1, 0); (1, 0); (0, 1); (0, -1);
   (-1, -1); (-1, 1); (1, -1); (1, 1)].

(** ** perform_flood_fill and flood_fill_diagonal

    The loops of the two functions (lines 54-81 and 133-160) are the same
    text; only the value of [directions] differs, so one pair of definitions
    parameterised by the direction list embeds both. *)

(** The [for dr, dc in directions] loop for the cell [(row, col)] that was
    just filled. [None] stands for an [IndexError] raised by
    [grid[new_row][new_col]]. *)
Fixpoint scan_neighbors (g : grid) (original_shape : string) (height width : Z)
    (row col : Z) (directions : list (Z * Z))
    (queue : list coord) (visited : gset coord)
    : option (list coord * gset coord) :=
  match directions with
  | [] => Some (queue, visited)
  | (dr, dc) :: rest =>
      let new_row := row + dr in
      let new_col := col + dc in
      if bool_decide (0 ≤ new_row < height) &&
         bool_decide (0 ≤ new_col < width) &&
         negb (bool_decide ((new_row, new_col) ∈ visited))
      then
        match grid_get g new_row new_col with
        | None => None
        | Some v =>
            if bool_decide (v = original_shape)
            then scan_neighbors g original_shape height width row col rest
                   (queue ++ [(new_row, new_col)])
                   ({[ (new_row, new_col) ]} ∪ visited)
            else scan_neighbors g original_shape height width row col rest
                   queue visited
        end
      else scan_neighbors g original_shape height width row col rest
             queue visited
  end.

(** The [while queue] loop. [fuel] bounds the number of iterations; [None]
    means the bound was reached before the queue ran empty. *)
Fixpoint fill_loop (fuel : nat) (directions : list (Z * Z))
    (original_shape new_shape : string) (height width : Z)
    (g : grid) (queue : list coord) (visited : gset coord) (cells_filled : Z)
    : option result :=
  match fuel with
  | O => None
  | S fuel' =>
      match queue with
      | [] => Some (g, Returned cells_filled)
      | (row, col) :: queue' =>
          match grid_get g row col with
          | None => Some (g, IndexError)
          | Some v =>
              if bool_decide (v = original_shape) then
                match grid_set g row col new_shape with
                | None => Some (g, IndexError)
                | Some g1 =>
                    match scan_neighbors g1 original_shape height width
                            row col directions queue' visited with
                    | None => Some (g1, IndexError)
                    | Some (queue2, visited2) =>
                        fill_loop fuel' directions original_shape new_shape
                          height width g1 queue2 visited2 (cells_filled + 1)
                    end
                end
              else
                fill_loop fuel' directions original_shape new_shape
                  height width g queue' visited cells_filled
          end
      end
  end.

(** Every iteration dequeues one cell and every cell of the
    [height * width] box is enqueued at most once, so this many iterations
    are enough on every grid ([fill_loop_enough]). *)
Definition iterations (g : grid) : nat := S (Z.to_nat (height g * width g)).
Arguments iterations : simpl never.

Definition perform_flood_fill (g : grid) (start_row start_col : Z)
    (new_shape : string) : option result :=
  let h := height g in
  let w := width g in
  if negb (bool_decide (0 ≤ start_row < h) && bool_decide (0 ≤ start_col < w))
  then Some (g, IndexError)
  else
    match grid_get g start_row start_col with
    | None => Some (g, IndexError)
    | Some original_shape =>
        if bool_decide (original_shape = new_shape) then Some (g, Returned 0)
        else
          fill_loop (iterations g) cardinal_directions
            original_shape new_shape h w g
            [(start_row, start_col)] {[ (start_row, start_col) ]} 0
    end.

Definition flood_fill_diagonal (g : grid) (start_row start_col : Z)
    (new_shape : string) : option result :=
  let h := height g in
  let w := width g in
  if negb (bool_decide (0 ≤ start_row < h) && bool_decide (0 ≤ start_col < w))
  then Some (g, IndexError)
  else
    match grid_get g start_row start_col with
    | None => Some (g, IndexError)
    | Some original_shape =>
        if bool_decide (original_shape = new_shape) then Some (g, Returned 0)
        else
          fill_loop (iterations g) diagonal_directions
            original_shape new_shape h w g
            [(start_row, start_col)] {[ (start_row, start_col) ]} 0
    end.

(** ** flood_fill_with_boundary *)

(** The neighbour loop of lines 226-241: a neighbour holding the boundary
    value is skipped ([continue]) before the comparison with the original
    value. [grid[new_row][new_col]] is read by the boundary test only when
    [boundary_shape] is true. *)
Fixpoint scan_neighbors_boundary (g : grid) (original_shape : string)
    (boundary_shape : option string) (height width : Z)
    (row col : Z) (directions : list (Z * Z))
    (queue : list coord) (visited : gset coord)
    : option (list coord * gset coord) :=
  match directions with
  | [] => Some (queue, visited)
  | (dr, dc) :: rest =>
      let new_row := row + dr in
      let new_col := col + dc in
      if bool_decide (0 ≤ new_row < height) &&
         bool_decide (0 ≤ new_col < width) &&
         negb (bool_decide ((new_row, new_col) ∈ visited))
      then
        if truthy boundary_shape then
          match grid_get g new_row new_col with
          | None => None
          | Some b =>
              if bool_decide (Some b = boundary_shape)
              then scan_neighbors_boundary g original_shape boundary_shape
                     height width row col rest queue visited
              else
                match grid_get g new_row new_col with
                | None => None
                | Some v =>
                    if bool_decide (v = original_shape)
                    then scan_neighbors_boundary g original_shape
                           boundary_shape height width row col rest
                           (queue ++ [(new_row, new_col)])
                           ({[ (new_row, new_col) ]} ∪ visited)
                    else scan_neighbors_boundary g original_shape
                           boundary_shape height width row col rest
                           queue visited
                end
          end
        else
          match grid_get g new_row new_col with
          | None => None
          | Some v =>
              if bool_decide (v = original_shape)
              then scan_neighbors_boundary g original_shape boundary_shape
                     height width row col rest
                     (queue ++ [(new_row, new_col)])
                     ({[ (new_row, new_col) ]} ∪ visited)
              else scan_neighbors_boundary g original_shape boundary_shape
                     height width row col rest queue visited
          end
      else scan_neighbors_boundary g original_shape boundary_shape
             height width row col rest queue visited
  end.

Fixpoint fill_loop_boundary (fuel : nat)
    (original_shape new_shape : string) (boundary_shape : option string)
    (height width : Z)
    (g : grid) (queue : list coord) (visited : gset coord) (cells_filled : Z)
    : option result :=
  match fuel with
  | O => None
  | S fuel' =>
      match queue with
      | [] => Some (g, Returned cells_filled)
      | (row, col) :: queue' =>
          match grid_get g row col with
          | None => Some (g, IndexError)
          | Some v =>
              if bool_decide (v = original_shape) then
                match grid_set g row col new_shape with
                | None => Some (g, IndexError)
                | Some g1 =>
                    match scan_neighbors_boundary g1 original_shape
                            boundary_shape height width
                            row col cardinal_directions queue' visited with
                    | None => Some (g1, IndexError)
                    | Some (queue2, visited2) =>
                        fill_loop_boundary fuel' original_shape new_shape
                          boundary_shape height width
                          g1 queue2 visited2 (cells_filled + 1)
                    end
                end
              else
                fill_loop_boundary fuel' original_shape new_shape
                  boundary_shape height width g queue' visited cells_filled
          end
      end
  end.

Definition flood_fill_with_boundary (g : grid) (start_row start_col : Z)
    (new_shape : string) (boundary_shape : option string) : option result :=
  let h := height g in
  let w := width g in
  if negb (bool_decide (0 ≤ start_row < h) && bool_decide (0 ≤ start_col < w))
  then Some (g, IndexError)
  else
    match grid_get g start_row start_col with
    | None => Some (g, IndexError)
    | Some original_shape =>
        if bool_decide (original_shape = new_shape) ||
           (truthy boundary_shape &&
            bool_decide (Some original_shape = boundary_shape))
        then Some (g, Returned 0)
        else
          fill_loop_boundary (iterations g) original_shape new_shape
            boundary_shape h w g
            [(start_row, start_col)] {[ (start_row, start_col) ]} 0
    end.

(** ** Row objects shared between positions

    In Python the rows of a grid are list objects, and one row object may
    stand at several positions of the outer list (as in [[row] * n] or
    [[a, b, a]]). [grid[row][col] = v] writes into the row object, so the
    write shows at every position where that object stands. The module
    [Store] embeds the three functions over a heap of row objects: [heap]
    lists the row objects, a grid is the outer list of their addresses
    (positions in [heap]). The functions never change the outer list, so
    they return the final heap next to the outcome. An address without a
    row object does not occur in Python; reading through one counts as an
    [IndexError] here.

    The definitions above, over lists of lists of values, are these
    functions on the grids whose rows are distinct objects: see
    [perform_flood_fill_refines], [flood_fill_diagonal_refines] and
    [flood_fill_with_boundary_refines]. *)

Module Store.

Abbreviation heap := (list (list string)).
Abbreviation result := (heap * outcome)%type.

(** [grid[row][col]]. *)
Definition grid_get (h : heap) (g : list nat) (row col : Z) : option string :=
  l ← py_getitem g row; r ← h !! l; py_getitem r col.

(** [grid[row][col] = v]: the row object at address [l] is updated in
    place. *)
Definition grid_set (h : heap) (g : list nat) (row col : Z) (v : string)
    : option heap :=
  l ← py_getitem g row;
  r ← h !! l;
  r' ← py_setitem r col v;
  Some (<[l := r']> h).

(** [height = len(grid)] and [width = len(grid[0]) if height > 0 else 0]. *)
Definition height (g : list nat) : Z := Z.of_nat (length g).

Definition width (h : heap) (g : list nat) : Z :=
  if bool_decide (height g > 0)
  then match py_getitem g 0 ≫= (h !!.) with
       | Some r => Z.of_nat (length r)
       | None => 0
       end
  else 0.

(** The [for dr, dc in directions] loop of lines 69-79 and 148-158. *)
Fixpoint scan_neighbors (h : heap) (g : list nat) (original_shape : string)
    (height width : Z) (row col : Z) (directions : list (Z * Z))
    (queue : list coord) (visited : gset coord)
    : option (list coord * gset coord) :=
  match directions with
  | [] => Some (queue, visited)
  | (dr, dc) :: rest =>
      let new_row := row + dr in
      let new_col := col + dc in
      if bool_decide (0 ≤ new_row < height) &&
         bool_decide (0 ≤ new_col < width) &&
         negb (bool_decide ((new_row, new_col) ∈ visited))
      then
        match grid_get h g new_row new_col with
        | None => None
        | Some v =>
            if bool_decide (v = original_shape)
            then scan_neighbors h g original_shape height width row col rest
                   (queue ++ [(new_row, new_col)])
                   ({[ (new_row, new_col) ]} ∪ visited)
            else scan_neighbors h g original_shape height width row col rest
                   queue visited
        end
      else scan_neighbors h g original_shape height width row col rest
             queue visited
  end.

(** The [while queue] loop of lines 54-81 and 133-160. *)
Fixpoint fill_loop (fuel : nat) (directions : list (Z * Z))
    (original_shape new_shape : string) (height width : Z)
    (h : heap) (g : list nat)
    (queue : list coord) (visited : gset coord) (cells_filled : Z)
    : option result :=
  match fuel with
  | O => None
  | S fuel' =>
      match queue with
      | [] => Some (h, Returned cells_filled)
      | (row, col) :: queue' =>
          match grid_get h g row col with
          | None => Some (h, IndexError)
          | Some v =>
              if bool_decide (v = original_shape) then
                match grid_set h g row col new_shape with
                | None => Some (h, IndexError)
                | Some h1 =>
                    match scan_neighbors h1 g original_shape height width
                            row col directions queue' visited with
                    | None => Some (h1, IndexError)
                    | Some (queue2, visited2) =>
                        fill_loop fuel' directions original_shape new_shape
                          height width h1 g queue2 visited2
                          (cells_filled + 1)
                    end
                end
              else
                fill_loop fuel' directions original_shape new_shape
                  height width h g queue' visited cells_filled
          end
      end
  end.

Definition iterations (h : heap) (g : list nat) : nat :=
  S (Z.to_nat (height g * width h g)).
Arguments iterations : simpl never.

Definition perform_flood_fill (h : heap) (g : list nat)
    (start_row start_col : Z) (new_shape : string) : option result :=
  let ht := height g in
  let w := width h g in
  if negb (bool_decide (0 ≤ start_row < ht) &&
           bool_decide (0 ≤ start_col < w))
  then Some (h, IndexError)
  else
    match grid_get h g start_row start_col with
    | None => Some (h, IndexError)
    | Some original_shape =>
        if bool_decide (original_shape = new_shape) then Some (h, Returned 0)
        else
          fill_loop (iterations h g) cardinal_directions
            original_shape new_shape ht w h g
            [(start_row, start_col)] {[ (start_row, start_col) ]} 0
    end.

Definition flood_fill_diagonal (h : heap) (g : list nat)
    (start_row start_col : Z) (new_shape : string) : option result :=
  let ht := height g in
  let w := width h g in
  if negb (bool_decide (0 ≤ start_row < ht) &&
           bool_decide (0 ≤ start_col < w))
  then Some (h, IndexError)
  else
    match grid_get h g start_row start_col with
    | None => Some (h, IndexError)
    | Some original_shape =>
        if bool_decide (original_shape = new_shape) then Some (h, Returned 0)
        else
          fill_loop (iterations h g) diagonal_directions
            original_shape new_shape ht w h g
            [(start_row, start_col)] {[ (start_row, start_col) ]} 0
    end.

(** The neighbour loop of lines 226-241. *)
Fixpoint scan_neighbors_boundary (h : heap) (g : list nat)
    (original_shape : string) (boundary_shape : option string)
    (height width : Z) (row col : Z) (directions : list (Z * Z))
    (queue : list coord) (visited : gset coord)
    : option (list coord * gset coord) :=
  match directions with
  | [] => Some (queue, visited)
  | (dr, dc) :: rest =>
      let new_row := row + dr in
      let new_col := col + dc in
      if bool_decide (0 ≤ new_row < height) &&
         bool_decide (0 ≤ new_col < width) &&
         negb (bool_decide ((new_row, new_col) ∈ visited))
      then
        if truthy boundary_shape then
          match grid_get h g new_row new_col with
          | None => None
          | Some b =>
              if bool_decide (Some b = boundary_shape)
              then scan_neighbors_boundary h g original_shape boundary_shape
                     height width row col rest queue visited
              else
                match grid_get h g new_row new_col with
                | None => None
                | Some v =>
                    if bool_decide (v = original_shape)
                    then scan_neighbors_boundary h g original_shape
                           boundary_shape height width row col rest
                           (queue ++ [(new_row, new_col)])
                           ({[ (new_row, new_col) ]} ∪ visited)
                    else scan_neighbors_boundary h g original_shape
                           boundary_shape height width row col rest
                           queue visited
                end
          end
        else
          match grid_get h g new_row new_col with
          | None => None
          | Some v =>
              if bool_decide (v = original_shape)
              then scan_neighbors_boundary h g original_shape boundary_shape
                     height width row col rest
                     (queue ++ [(new_row, new_col)])
                     ({[ (new_row, new_col) ]} ∪ visited)
              else scan_neighbors_boundary h g original_shape boundary_shape
                     height width row col rest queue visited
          end
      else scan_neighbors_boundary h g original_shape boundary_shape
             height width row col rest queue visited
  end.

(** The [while queue] loop of lines 211-243. *)
Fixpoint fill_loop_boundary (fuel : nat)
    (original_shape new_shape : string) (boundary_shape : option string)
    (height width : Z) (h : heap) (g : list nat)
    (queue : list coord) (visited : gset coord) (cells_filled : Z)
    : option result :=
  match fuel with
  | O => None
  | S fuel' =>
      match queue with
      | [] => Some (h, Returned cells_filled)
      | (row, col) :: queue' =>
          match grid_get h g row col with
          | None => Some (h, IndexError)
          | Some v =>
              if bool_decide (v = original_shape) then
                match grid_set h g row col new_shape with
                | None => Some (h, IndexError)
                | Some h1 =>
                    match scan_neighbors_boundary h1 g original_shape
                            boundary_shape height width
                            row col cardinal_directions queue' visited with
                    | None => Some (h1, IndexError)
                    | Some (queue2, visited2) =>
                        fill_loop_boundary fuel' original_shape new_shape
                          boundary_shape height width
                          h1 g queue2 visited2 (cells_filled + 1)
                    end
                end
              else
                fill_loop_boundary fuel' original_shape new_shape
                  boundary_shape height width h g queue' visited cells_filled
          end
      end
  end.

Definition flood_fill_with_boundary (h : heap) (g : list nat)
    (start_row start_col : Z) (new_shape : string)
    (boundary_shape : option string) : option result :=
  let ht := height g in
  let w := width h g in
  if negb (bool_decide (0 ≤ start_row < ht) &&
           bool_decide (0 ≤ start_col < w))
  then Some (h, IndexError)
  else
    match grid_get h g start_row start_col with
    | None => Some (h, IndexError)
    | Some original_shape =>
        if bool_decide (original_shape = new_shape) ||
           (truthy boundary_shape &&
            bool_decide (Some original_shape = boundary_shape))
        then Some (h, Returned 0)
        else
          fill_loop_boundary (iterations h g) original_shape new_shape
            boundary_shape ht w h g
            [(start_row, start_col)] {[ (start_row, start_col) ]} 0
    end.

End Store.

(** The grid as its reader sees it: at each position the contents of the
    row object that stands there. *)
Definition values (h : Store.heap) (g : list nat) : grid :=
  (λ l, default [] (h !! l)) <$> g.

(** The result of a [Store] function as its caller reads it through the
    grid [g]. *)
Definition view_result (g : list nat) (r : option Store.result)
    : option result :=
  prod_map (λ h', values h' g) id <$> r.

(** ** Vocabulary of the contract *)

(** Valid coordinates: [0 <= row < height] and [0 <= col < width]. *)
Definition in_bounds (g : grid) (p : coord) : Prop :=
  0 ≤ p.1 < height g ∧ 0 ≤ p.2 < width g.

(** All rows are as long as the first one. *)
Definition rectangular (g : grid) : Prop :=
  Forall (λ r, Z.of_nat (length r) = width g) g.

(** The value of a cell, [None] outside the grid. *)
Definition cell (g : grid) (p : coord) : option string :=
  if bool_decide (0 ≤ p.1 ∧ 0 ≤ p.2)
  then r ← g !! Z.to_nat p.1; r !! Z.to_nat p.2
  else None.

Definition move (p : coord) (d : Z * Z) : coord := (p.1 + d.1, p.2 + d.2).

(** [connected directions g through seed p]: [p] is reached from [seed] by
    steps of [directions], all cells on the way (both ends included) being
    cells of the grid whose value satisfies [through]. *)
Inductive connected (directions : list (Z * Z)) (g : grid)
    (through : string → Prop) (seed : coord) : coord → Prop :=
  | connected_seed v :
      in_bounds g seed → cell g seed = Some v → through v →
      connected directions g through seed seed
  | connected_step p d v :
      connected directions g through seed p →
      d ∈ directions →
      in_bounds g (move p d) → cell g (move p d) = Some v → through v →
      connected directions g through seed (move p d).

(** All coordinates of the grid, row by row. *)
Definition all_coords (g : grid) : list coord :=
  r ← seqZ 0 (height g); c ← seqZ 0 (width g); [(r, c)].

(** The cells on which two grids differ. *)
Definition changed_cells (g g' : grid) : list coord :=
  filter (λ p, cell g p ≠ cell g' p) (all_coords g).

(** [n] is the size of the component of [seed]. *)
Definition component_size (directions : list (Z * Z)) (g : grid)
    (through : string → Prop) (seed : coord) (n : Z) : Prop :=
  ∃ comp : gset coord,
    (∀ p, p ∈ comp ↔ connected directions g through seed p) ∧
    n = Z.of_nat (size comp).

(** The invariant of the [while] loop. [g0] is the grid at the call and
    [seed] the starting cell, holding [original_shape]. The invariant also
    covers the inside of the [for] loop: [cur] is the cell being expanded
    and [todo] the directions still to try from it ([todo = []] between two
    iterations of the [while] loop). The filled cells are the visited cells
    that left the queue. *)
Record fill_inv (directions : list (Z * Z)) (g0 : grid)
    (original_shape new_shape : string) (seed : coord)
    (cur : coord) (todo : list (Z * Z)) (g : grid)
    (queue : list coord) (visited : gset coord) (cells_filled : Z) : Prop := {
  inv_height : height g = height g0;
  inv_width : width g = width g0;
  inv_rect : rectangular g;
  inv_cells : ∀ p,
    cell g p = if decide (p ∈ visited ∧ p ∉ queue)
               then Some new_shape else cell g0 p;
  inv_visited : ∀ p,
    p ∈ visited → connected directions g0 (λ v, v = original_shape) seed p;
  inv_queue : ∀ p, p ∈ queue → p ∈ visited;
  inv_nodup : NoDup queue;
  inv_closed : ∀ p d,
    p ∈ visited → p ∉ queue → d ∈ directions → (p = cur → d ∉ todo) →
    in_bounds g0 (move p d) → cell g0 (move p d) = Some original_shape →
    move p d ∈ visited;
  inv_count :
    cells_filled = Z.of_nat (size visited) - Z.of_nat (length queue);
  inv_seed : seed ∈ visited
}.

(** What a completed fill leaves behind: the grid [g'] and the set of
    rewritten cells [comp], for the component of [seed] under [directions]
    through the cells holding [original_shape]. *)
Record filled (directions : list (Z * Z)) (g : grid) (seed : coord)
    (original_shape new_shape : string) (g' : grid) (comp : gset coord)
    : Prop := {
  filled_height : height g' = height g;
  filled_width : width g' = width g;
  filled_rect : rectangular g';
  filled_comp : ∀ p,
    p ∈ comp ↔ connected directions g (λ v, v = original_shape) seed p;
  filled_cells : ∀ p,
    cell g' p = if decide (p ∈ comp) then Some new_shape else cell g p
}.



(** A grid of one value. *)
Definition blank_grid : grid :=
  [["-"; "-"; "-"]; ["-"; "-"; "-"]; ["-"; "-"; "-"]]%string.

(** Grids with a shared row object: [a = ['-']; [a, ['X'], a]], then
    [row = ['-', '-']; [row, row]], then a grid of five rows whose first and
    fourth rows are one object. *)
Definition shared_column_heap : Store.heap := [["-"]; ["X"]]%string.
Definition shared_column : list nat := [0; 1; 0]%nat.

Definition shared_pair_heap : Store.heap := [["-"; "-"]]%string.
Definition shared_pair : list nat := [0; 0]%nat.

Definition shared_maze_heap : Store.heap :=
  [["X"; "-"; "X"]; ["X"; "X"; "-"]; ["X"; "-"; "-"]; ["X"; "-"; "X"]]%string.
Definition shared_maze : list nat := [0; 1; 2; 0; 3]%nat.

(** The addresses of a grid of three rows that are three objects. *)
Definition three_rows : list nat := [0; 1; 2]%nat.

(** Small grids used in the examples below. *)
Definition scenario_grid : grid :=
  [["X"; "X"; "-"]; ["X"; "-"; "-"]; ["-"; "-"; "-"]]%string.

Definition checkerboard : grid := [["-"; "X"]; ["X"; "-"]]%string.

Definition walled_grid : grid :=
  [["#"; "#"; "#"]; ["#"; "-"; "#"]; ["#"; "#"; "#"]]%string.

(** ** Reading and writing cells of a rectangular grid *)

Lemma width_cons r g : width (r :: g) = Z.of_nat (length r).
Proof.
  unfold width, height. rewrite bool_decide_eq_true_2 by (simpl; lia). done.
Qed.

Lemma width_nonneg g : 0 ≤ width g.
Proof. destruct g; [done|]. rewrite width_cons. lia. Qed.

Lemma area_nonneg g : 0 ≤ height g * width g.
Proof.
  apply Z.mul_nonneg_nonneg; [unfold height; lia|apply width_nonneg].
Qed.

Lemma grid_get_cell g row col :
  0 ≤ row → 0 ≤ col → grid_get g row col = cell g (row, col).
Proof.
  intros Hr Hc. unfold grid_get, cell, py_getitem. simpl.
  rewrite (bool_decide_eq_true_2 (0 ≤ row)) by lia.
  rewrite (bool_decide_eq_true_2 (0 ≤ row ∧ 0 ≤ col)) by lia.
  destruct (g !! Z.to_nat row) as [r|]; simpl; [|done].
  by rewrite (bool_decide_eq_true_2 (0 ≤ col)) by lia.
Qed.

Lemma cell_in_bounds g p :
  rectangular g → in_bounds g p → is_Some (cell g p).
Proof.
  intros Hrect [Hr Hc]. unfold cell. rewrite bool_decide_eq_true_2 by lia.
  destruct (lookup_lt_is_Some_2 g (Z.to_nat p.1)) as [r Hrow].
  { unfold height in Hr. lia. }
  rewrite Hrow. simpl. apply lookup_lt_is_Some_2.
  eapply Forall_lookup_1 in Hrect; [|done]. simpl in Hrect. lia.
Qed.

Lemma grid_set_spec g row col v :
  rectangular g → in_bounds g (row, col) →
  ∃ g', grid_set g row col v = Some g' ∧
        height g' = height g ∧ width g' = width g ∧ rectangular g' ∧
        ∀ q, cell g' q = if decide (q = (row, col)) then Some v else cell g q.
Proof.
  intros Hrect [Hr Hc]. simpl in Hr, Hc.
  destruct (lookup_lt_is_Some_2 g (Z.to_nat row)) as [r Hrow].
  { unfold height in Hr. lia. }
  assert (Hlen : Z.of_nat (length r) = width g)
    by (eapply Forall_lookup_1 in Hrect; [|done]; done).
  exists (<[Z.to_nat row := <[Z.to_nat col := v]> r]> g).
  assert (Hw : width (<[Z.to_nat row := <[Z.to_nat col := v]> r]> g) = width g).
  { destruct g as [|r0 g]; [done|].
    destruct (Z.to_nat row) as [|n] eqn:Hn; simpl.
    - rewrite !width_cons, length_insert. simpl in Hrow. by simplify_eq.
    - by rewrite !width_cons. }
  split_and!.
  - unfold grid_set, py_getitem, py_setitem. unfold height in Hr.
    rewrite bool_decide_eq_true_2 by lia. rewrite Hrow. simpl.
    rewrite bool_decide_eq_true_2 by lia. simpl.
    by rewrite bool_decide_eq_true_2 by lia.
  - unfold height. by rewrite length_insert.
  - done.
  - unfold rectangular. rewrite Hw. apply Forall_insert; [done|].
    by rewrite length_insert.
  - intros [qr qc]. unfold cell. simpl. case_decide as Hq.
    + simplify_eq. rewrite bool_decide_eq_true_2 by lia.
      rewrite list_lookup_insert_eq by (unfold height in Hr; lia). simpl.
      apply list_lookup_insert_eq. lia.
    + case_bool_decide as Hnn; [|done].
      destruct (decide (Z.to_nat qr = Z.to_nat row)) as [Heq|Hne].
      * rewrite Heq, Hrow, list_lookup_insert_eq by (unfold height in Hr; lia).
        simpl. apply list_lookup_insert_ne. intros Hcc.
        apply Hq. f_equal; lia.
      * by rewrite list_lookup_insert_ne.
Qed.

(** ** The coordinates of a grid *)

Lemma elem_of_all_coords g p : p ∈ all_coords g ↔ in_bounds g p.
Proof.
  unfold all_coords, in_bounds. rewrite list_elem_of_bind. split.
  - intros (r & (c & Hp & Hc%elem_of_seqZ)%list_elem_of_bind & Hr%elem_of_seqZ).
    apply list_elem_of_singleton in Hp as ->. simpl. lia.
  - intros [Hr Hc]. exists p.1. split; [|apply elem_of_seqZ; lia].
    apply list_elem_of_bind. exists p.2. split; [|apply elem_of_seqZ; lia].
    destruct p. apply list_elem_of_singleton. done.
Qed.

Lemma NoDup_all_coords g : NoDup (all_coords g).
Proof.
  unfold all_coords. apply NoDup_bind; [| |apply NoDup_seqZ].
  - intros r1 r2 p _ _ (c1 & Hp1 & _)%list_elem_of_bind
      (c2 & Hp2 & _)%list_elem_of_bind.
    apply list_elem_of_singleton in Hp1, Hp2. by simplify_eq.
  - intros r _. apply NoDup_bind; [| |apply NoDup_seqZ].
    + intros c1 c2 p _ _ Hp1%list_elem_of_singleton Hp2%list_elem_of_singleton.
      by simplify_eq.
    + intros c _. apply NoDup_singleton.
Qed.

Lemma length_bind_const {A B} (f : A → list B) (l : list A) (n : nat) :
  (∀ x, length (f x) = n) → length (l ≫= f) = (length l * n)%nat.
Proof.
  intros Hf. induction l as [|x l IH]; [done|].
  rewrite bind_cons, length_app, Hf, IH. simpl. lia.
Qed.

Lemma length_all_coords g :
  length (all_coords g) = Z.to_nat (height g * width g).
Proof.
  unfold all_coords.
  rewrite (length_bind_const _ _ (Z.to_nat (width g))).
  - rewrite length_seqZ. unfold height. lia.
  - intros r. rewrite (length_bind_const _ _ 1%nat) by done.
    rewrite length_seqZ. lia.
Qed.

(** A set of valid coordinates has at most [height * width] elements. *)
Lemma size_in_bounds (g : grid) (X : gset coord) :
  (∀ p, p ∈ X → in_bounds g p) →
  (size X ≤ Z.to_nat (height g * width g))%nat.
Proof.
  intros HX. rewrite <- length_all_coords.
  rewrite <- (size_list_to_set (C:=gset coord)) by apply NoDup_all_coords.
  apply subseteq_size. intros p Hp.
  apply elem_of_list_to_set, elem_of_all_coords. auto.
Qed.

(** ** Connectivity *)

Lemma connected_in_bounds directions g through seed p :
  connected directions g through seed p → in_bounds g p.
Proof. by destruct 1. Qed.

Lemma connected_through directions g through seed p :
  connected directions g through seed p →
  ∃ v, cell g p = Some v ∧ through v.
Proof. destruct 1; eauto. Qed.

Lemma connected_mono directions directions' g (through through' : string → Prop)
    seed p :
  directions ⊆ directions' →
  (∀ v, through v → through' v) →
  connected directions g through seed p →
  connected directions' g through' seed p.
Proof.
  intros Hd Ht. induction 1.
  - eapply connected_seed; eauto.
  - eapply connected_step; eauto.
Qed.

(** ** The loop invariant

  [g0] is the grid at the call, [seed] the starting cell, holding
  [original_shape]. The component of the seed is the set of cells
  connected to it through cells holding [original_shape]. *)

Section fill_invariant.
Variable directions : list (Z * Z).
Variable g0 : grid.
Variable original_shape new_shape : string.
Variable seed : coord.
Hypothesis g0_rect : rectangular g0.
Hypothesis new_differs : original_shape ≠ new_shape.

Local Abbreviation component :=
  (connected directions g0 (λ v, v = original_shape) seed).
Local Abbreviation fill_inv :=
  (fill_inv directions g0 original_shape new_shape seed).

Lemma component_cell p : component p → cell g0 p = Some original_shape.
Proof. intros (v & ? & ->)%connected_through. done. Qed.

Lemma fill_inv_init :
  in_bounds g0 seed → cell g0 seed = Some original_shape →
  fill_inv seed [] g0 [seed] {[ seed ]} 0.
Proof.
  intros Hin Hcell. split; try done.
  - intros p. rewrite decide_False; [done|]. set_solver.
  - intros p ->%elem_of_singleton. by eapply connected_seed.
  - set_solver.
  - apply NoDup_singleton.
  - set_solver.
  - rewrite size_singleton. simpl. lia.
  - set_solver.
Qed.

Lemma fill_inv_cur cur cur' g queue visited n :
  fill_inv cur [] g queue visited n → fill_inv cur' [] g queue visited n.
Proof.
  intros []. split; try done.
  intros p d ?? ? _. apply inv_closed0; try done. intros _. set_solver.
Qed.

(** Dequeuing: the head of the queue still holds the original value and
    is written. *)
Lemma fill_inv_dequeue cur g row col queue visited n :
  fill_inv cur [] g ((row, col) :: queue) visited n →
  ∃ g1, grid_get g row col = Some original_shape ∧
        grid_set g row col new_shape = Some g1 ∧
        (row, col) ∈ visited ∧
        fill_inv (row, col) directions g1 queue visited (n + 1).
Proof.
  intros [Hh Hw Hrect Hcells Hvis Hq Hnd Hcl Hcnt Hseed].
  assert (Hp : (row, col) ∈ visited) by (apply Hq; left).
  pose proof (Hvis _ Hp) as Hcomp.
  pose proof (connected_in_bounds _ _ _ _ _ Hcomp) as Hin.
  pose proof (component_cell _ Hcomp) as Hcell0.
  assert (Hcell : cell g (row, col) = Some original_shape).
  { rewrite Hcells, decide_False; [done|]. intros [_ Hn]. apply Hn. left. }
  apply NoDup_cons in Hnd as [Hnotin Hnd].
  destruct (grid_set_spec g row col new_shape Hrect) as
    (g1 & Hset & Hh1 & Hw1 & Hrect1 & Hcells1).
  { unfold in_bounds in *. rewrite Hh, Hw. done. }
  exists g1. split_and!; try done.
  { destruct Hin as [[??] [??]]. by rewrite grid_get_cell. }
  split; try done; try congruence.
  - intros p. rewrite Hcells1. case_decide as Hpeq.
    + subst p. by rewrite decide_True.
    + rewrite Hcells. apply decide_ext. rewrite not_elem_of_cons. naive_solver.
  - intros p ?. apply Hq. by right.
  - intros p d Hpv Hpq Hd Htodo. destruct (decide (p = (row, col))) as [->|Hne].
    + by destruct Htodo.
    + apply Hcl; try done; [|set_solver]. rewrite not_elem_of_cons. done.
  - rewrite Hcnt. simpl. lia.
Qed.

(** A direction whose neighbour is outside the grid, already visited, or
    holds another value needs no enqueue. *)
Lemma fill_inv_skip cur d todo g queue visited n :
  fill_inv cur (d :: todo) g queue visited n →
  (in_bounds g0 (move cur d) → cell g0 (move cur d) = Some original_shape →
   move cur d ∈ visited) →
  fill_inv cur todo g queue visited n.
Proof.
  intros [] Hd. split; try done.
  intros p d' Hpv Hpq Hd' Htodo Hin Hcell.
  destruct (decide (p = cur ∧ d' = d)) as [[-> ->]|Hne]; [by apply Hd|].
  apply inv_closed0; try done.
  intros ->. rewrite not_elem_of_cons. naive_solver.
Qed.

(** Enqueuing a fresh neighbour that holds the original value. *)
Lemma fill_inv_enqueue cur d todo g queue visited n :
  fill_inv cur (d :: todo) g queue visited n →
  cur ∈ visited → d ∈ directions →
  in_bounds g0 (move cur d) → move cur d ∉ visited →
  cell g0 (move cur d) = Some original_shape →
  fill_inv cur todo g (queue ++ [move cur d]) ({[ move cur d ]} ∪ visited) n.
Proof.
  intros [Hh Hw Hrect Hcells Hvis Hq Hnd Hcl Hcnt Hseed] Hcur Hd Hin Hfresh Hcell.
  split; try done.
  - intros p. rewrite Hcells. apply decide_ext.
    clear -Hfresh. set_solver.
  - intros p [Hp%elem_of_singleton|?]%elem_of_union; [subst p|by apply Hvis].
    eapply connected_step; eauto.
  - intros p [?|Hp%list_elem_of_singleton]%elem_of_app; set_solver.
  - apply NoDup_app. split_and!; [done| |apply NoDup_singleton].
    intros p Hp ->%list_elem_of_singleton. by apply Hfresh, Hq.
  - intros p d' Hpv [Hpq Hpn%not_elem_of_cons]%not_elem_of_app Hd' Htodo Hin' Hcell'.
    destruct Hpn as [Hpn _].
    destruct (decide (p = cur ∧ d' = d)) as [[-> ->]|Hne]; [set_solver|].
    apply elem_of_union_r. apply Hcl; try done; [set_solver|].
    intros ->. rewrite not_elem_of_cons. naive_solver.
  - rewrite size_union, size_singleton, length_app by set_solver.
    simpl. lia.
  - set_solver.
Qed.

(** The [for] loop over the directions establishes the invariant of the
    [while] loop again, and raises nothing. *)
Lemma scan_neighbors_inv todo : ∀ row col g queue visited n,
  fill_inv (row, col) todo g queue visited n →
  todo ⊆ directions → (row, col) ∈ visited →
  ∃ queue' visited',
    scan_neighbors g original_shape (height g0) (width g0) row col todo
      queue visited = Some (queue', visited') ∧
    fill_inv (row, col) [] g queue' visited' n.
Proof.
  induction todo as [|[dr dc] todo IH]; intros row col g queue visited n
    Hinv Hsub Hcur.
  { simpl. eauto. }
  assert (Hd : (dr, dc) ∈ directions) by set_solver.
  assert (Hsub' : todo ⊆ directions) by set_solver.
  simpl.
  change (row + dr, col + dc) with (move (row, col) (dr, dc)).
  destruct (decide (in_bounds g0 (move (row, col) (dr, dc)) ∧
                    move (row, col) (dr, dc) ∉ visited)) as [[Hin Hfresh]|Hno].
  - destruct Hin as [Hr Hc]. simpl in Hr, Hc.
    rewrite (bool_decide_eq_true_2 _ Hr), (bool_decide_eq_true_2 _ Hc),
      (bool_decide_eq_false_2 _ Hfresh). simpl.
    rewrite grid_get_cell by lia.
    change (row + dr, col + dc) with (move (row, col) (dr, dc)).
    rewrite (inv_cells _ _ _ _ _ _ _ _ _ _ _ Hinv), decide_False by tauto.
    destruct (cell_in_bounds g0 (move (row, col) (dr, dc)) g0_rect)
      as [v Hv]; [done|].
    rewrite Hv. case_bool_decide as Hveq.
    + subst v. apply IH; [|done|set_solver].
      by apply fill_inv_enqueue.
    + apply IH; [|done|done].
      eapply fill_inv_skip; [done|]. congruence.
  - assert (bool_decide (0 ≤ row + dr < height g0) &&
            bool_decide (0 ≤ col + dc < width g0) &&
            negb (bool_decide (move (row, col) (dr, dc) ∈ visited)) = false)
      as ->.
    { apply not_true_is_false. intros Ht.
      apply andb_prop in Ht as [Ht Hv]. apply andb_prop in Ht as [Hr Hc].
      apply bool_decide_eq_true_1 in Hr, Hc.
      apply negb_true_iff, bool_decide_eq_false_1 in Hv.
      apply Hno. done. }
    apply IH; [|done|done].
    eapply fill_inv_skip; [done|]. intros Hin _.
    destruct (decide (move (row, col) (dr, dc) ∈ visited)); [done|].
    destruct Hno. done.
Qed.

(** The [while] loop returns, with the invariant at an empty queue, as
    soon as [fuel] exceeds the number of cells not yet filled. *)
Lemma fill_loop_inv fuel : ∀ cur g queue visited n,
  fill_inv cur [] g queue visited n →
  height g0 * width g0 - n < Z.of_nat fuel →
  ∃ g' visited' n',
    fill_loop fuel directions original_shape new_shape
      (height g0) (width g0) g queue visited n = Some (g', Returned n') ∧
    fill_inv seed [] g' [] visited' n'.
Proof.
  induction fuel as [|fuel IH]; intros cur g queue visited n Hinv Hfuel.
  { exfalso.
    assert (Hle : (size visited ≤ Z.to_nat (height g0 * width g0))%nat).
    { apply size_in_bounds. intros p Hp.
      eapply connected_in_bounds, inv_visited; done. }
    pose proof (area_nonneg g0).
    rewrite (inv_count _ _ _ _ _ _ _ _ _ _ _ Hinv) in Hfuel. lia. }
  destruct queue as [|[row col] queue]; simpl.
  { eexists _, _, _. split; [done|]. by eapply fill_inv_cur. }
  destruct (fill_inv_dequeue _ _ _ _ _ _ _ Hinv)
    as (g1 & -> & -> & Hcur & Hinv1).
  rewrite bool_decide_eq_true_2 by done.
  destruct (scan_neighbors_inv directions row col g1 queue visited (n + 1))
    as (queue2 & visited2 & -> & Hinv2); [done|done|done|].
  eapply IH; [done|lia].
Qed.

(** At an empty queue the visited cells are the component of the seed. *)
Lemma fill_inv_component cur g visited n p :
  fill_inv cur [] g [] visited n → p ∈ visited ↔ component p.
Proof.
  intros Hinv. split; [by apply (inv_visited _ _ _ _ _ _ _ _ _ _ _ Hinv)|].
  induction 1 as [|p d v Hp IH Hd Hin Hcell ->].
  - by apply (inv_seed _ _ _ _ _ _ _ _ _ _ _ Hinv).
  - apply (inv_closed _ _ _ _ _ _ _ _ _ _ _ Hinv); try done; set_solver.
Qed.
End fill_invariant.

(** ** The loop started at the seed *)

Lemma fill_loop_filled directions g row col original_shape new_shape :
  rectangular g → in_bounds g (row, col) →
  cell g (row, col) = Some original_shape →
  original_shape ≠ new_shape →
  ∃ g' comp,
    fill_loop (iterations g) directions original_shape new_shape
      (height g) (width g) g [(row, col)] {[ (row, col) ]} 0
    = Some (g', Returned (Z.of_nat (size comp))) ∧
    filled directions g (row, col) original_shape new_shape g' comp.
Proof.
  intros Hrect Hin Hcell Hne.
  destruct (fill_loop_inv directions g original_shape new_shape (row, col)
              Hrect Hne (iterations g) (row, col) g
              [(row, col)] {[ (row, col) ]} 0)
    as (g' & comp & n & Hrun & Hinv).
  { by apply fill_inv_init. }
  { pose proof (area_nonneg g). unfold iterations. lia. }
  exists g', comp. split.
  - rewrite Hrun. do 3 f_equal.
    rewrite (inv_count _ _ _ _ _ _ _ _ _ _ _ Hinv). simpl. lia.
  - pose proof (λ p, fill_inv_component _ _ _ _ _ Hrect Hne _ _ _ _ p Hinv)
      as Hcomp.
    destruct Hinv as [Hh Hw Hr Hcells _ _ _ _ _ _]. split; try done.
    intros p. rewrite Hcells. apply decide_ext.
    pose proof (not_elem_of_nil p). tauto.
Qed.

Lemma perform_flood_fill_in_bounds g row col new_shape original_shape :
  in_bounds g (row, col) → cell g (row, col) = Some original_shape →
  perform_flood_fill g row col new_shape =
    if bool_decide (original_shape = new_shape) then Some (g, Returned 0)
    else fill_loop (iterations g) cardinal_directions
           original_shape new_shape (height g) (width g) g
           [(row, col)] {[ (row, col) ]} 0.
Proof.
  intros [Hr Hc] Hcell. simpl in Hr, Hc. unfold perform_flood_fill.
  rewrite (bool_decide_eq_true_2 _ Hr), (bool_decide_eq_true_2 _ Hc).
  cbn [andb negb].
  by rewrite grid_get_cell, Hcell by lia.
Qed.

Lemma flood_fill_diagonal_in_bounds g row col new_shape original_shape :
  in_bounds g (row, col) → cell g (row, col) = Some original_shape →
  flood_fill_diagonal g row col new_shape =
    if bool_decide (original_shape = new_shape) then Some (g, Returned 0)
    else fill_loop (iterations g) diagonal_directions
           original_shape new_shape (height g) (width g) g
           [(row, col)] {[ (row, col) ]} 0.
Proof.
  intros [Hr Hc] Hcell. simpl in Hr, Hc. unfold flood_fill_diagonal.
  rewrite (bool_decide_eq_true_2 _ Hr), (bool_decide_eq_true_2 _ Hc).
  cbn [andb negb].
  by rewrite grid_get_cell, Hcell by lia.
Qed.

(** ** The boundary variant against the plain loop

    Past the early return the original value is not the boundary value, so
    a neighbour skipped for holding the boundary value would not have been
    enqueued by the plain loop either. *)

Lemma scan_neighbors_boundary_plain g original_shape boundary_shape h w
    row col directions : ∀ queue visited,
  (truthy boundary_shape = true → Some original_shape ≠ boundary_shape) →
  scan_neighbors_boundary g original_shape boundary_shape h w row col
    directions queue visited =
  scan_neighbors g original_shape h w row col directions queue visited.
Proof.
  intros queue visited Hb. revert queue visited.
  induction directions as [|[dr dc] directions IH]; intros queue visited;
    [done|].
  simpl. destruct (_ && _ && _); [|done].
  destruct (truthy boundary_shape) eqn:Ht.
  - destruct (grid_get g (row + dr) (col + dc)) as [v|]; [|done].
    case_bool_decide as Hvb.
    + rewrite bool_decide_eq_false_2; [done|]. intros ->. by apply Hb.
    + by rewrite !IH.
  - destruct (grid_get g (row + dr) (col + dc)) as [v|]; [|done].
    by rewrite !IH.
Qed.

Lemma fill_loop_boundary_plain fuel original_shape new_shape boundary_shape
    h w : ∀ g queue visited n,
  (truthy boundary_shape = true → Some original_shape ≠ boundary_shape) →
  fill_loop_boundary fuel original_shape new_shape boundary_shape h w
    g queue visited n =
  fill_loop fuel cardinal_directions original_shape new_shape h w
    g queue visited n.
Proof.
  intros g queue visited n Hb. revert g queue visited n.
  induction fuel as [|fuel IH]; intros g queue visited n; [done|].
  cbn [fill_loop fill_loop_boundary].
  destruct queue as [|[row col] queue]; [done|].
  destruct (grid_get g row col) as [v|]; [|done].
  case_bool_decide; [|done].
  destruct (grid_set g row col new_shape) as [g1|]; [|done].
  rewrite scan_neighbors_boundary_plain by done.
  destruct (scan_neighbors _ _ _ _ _ _ _ _ _) as [[queue2 visited2]|]; done.
Qed.

Lemma flood_fill_with_boundary_in_bounds g row col new_shape boundary_shape
    original_shape :
  in_bounds g (row, col) → cell g (row, col) = Some original_shape →
  flood_fill_with_boundary g row col new_shape boundary_shape =
    if truthy boundary_shape &&
       bool_decide (Some original_shape = boundary_shape)
    then Some (g, Returned 0)
    else perform_flood_fill g row col new_shape.
Proof.
  intros Hin Hcell.
  rewrite (perform_flood_fill_in_bounds _ _ _ _ _ Hin Hcell).
  destruct Hin as [Hr Hc]. simpl in Hr, Hc. unfold flood_fill_with_boundary.
  rewrite (bool_decide_eq_true_2 _ Hr), (bool_decide_eq_true_2 _ Hc).
  cbn [andb negb].
  rewrite grid_get_cell, Hcell by lia.
  destruct (truthy boundary_shape &&
            bool_decide (Some original_shape = boundary_shape)) eqn:Hb.
  - by rewrite orb_true_r.
  - rewrite orb_false_r.
    destruct (bool_decide (original_shape = new_shape)); [done|].
    apply fill_loop_boundary_plain. intros Ht. rewrite Ht in Hb.
    by apply bool_decide_eq_false_1 in Hb.
Qed.

(** ** The iteration bound is never reached

    This holds for every grid, rectangular or not: only cells of the
    [height * width] box that are not yet in [visited] are enqueued. *)

Lemma scan_neighbors_bound g original_shape g0 row col directions :
  ∀ queue visited queue' visited',
  (∀ p, p ∈ visited → in_bounds g0 p) →
  scan_neighbors g original_shape (height g0) (width g0) row col directions
    queue visited = Some (queue', visited') →
  (∀ p, p ∈ visited' → in_bounds g0 p) ∧
  (length queue' + size visited = length queue + size visited')%nat.
Proof.
  induction directions as [|[dr dc] directions IH];
    intros queue visited queue' visited' Hbox Hscan; simpl in Hscan.
  { by simplify_eq. }
  destruct (bool_decide (0 ≤ row + dr < height g0)) eqn:Hr;
    [|by apply IH]; simpl in Hscan.
  destruct (bool_decide (0 ≤ col + dc < width g0)) eqn:Hc;
    [|by apply IH]; simpl in Hscan.
  destruct (bool_decide ((row + dr, col + dc) ∈ visited)) eqn:Hv;
    [by apply IH|]; simpl in Hscan.
  destruct (grid_get g (row + dr) (col + dc)) as [v|]; [|done].
  destruct (bool_decide (v = original_shape)); [|by apply IH].
  apply bool_decide_eq_true_1 in Hr, Hc. apply bool_decide_eq_false_1 in Hv.
  apply IH in Hscan as [Hbox' Hlen].
  - split; [done|].
    rewrite size_union, size_singleton, length_app in Hlen by set_solver.
    simpl in Hlen. lia.
  - intros p [Hp%elem_of_singleton|Hp]%elem_of_union; [|by apply Hbox].
    subst p. done.
Qed.

Lemma fill_loop_enough directions original_shape new_shape g0 fuel :
  ∀ g queue visited n,
  (∀ p, p ∈ visited → in_bounds g0 p) →
  (length queue + Z.to_nat (height g0 * width g0) - size visited < fuel)%nat →
  is_Some (fill_loop fuel directions original_shape new_shape
             (height g0) (width g0) g queue visited n).
Proof.
  induction fuel as [|fuel IH]; intros g queue visited n Hbox Hfuel; [lia|].
  pose proof (size_in_bounds g0 visited Hbox) as Hsize.
  simpl. destruct queue as [|[row col] queue]; [done|].
  destruct (grid_get g row col) as [v|]; [|done].
  simpl in Hfuel. case_bool_decide; [|apply IH; [done|lia]].
  destruct (grid_set g row col new_shape) as [g1|]; [|done].
  destruct (scan_neighbors _ _ _ _ _ _ _ _ _) as [[queue2 visited2]|] eqn:Hscan;
    [|done].
  apply scan_neighbors_bound in Hscan as [Hbox2 Hlen]; [|done].
  pose proof (size_in_bounds g0 visited2 Hbox2).
  apply IH; [done|lia].
Qed.

Lemma scan_neighbors_boundary_bound g original_shape boundary_shape g0
    row col directions :
  ∀ queue visited queue' visited',
  (∀ p, p ∈ visited → in_bounds g0 p) →
  scan_neighbors_boundary g original_shape boundary_shape
    (height g0) (width g0) row col directions queue visited
  = Some (queue', visited') →
  (∀ p, p ∈ visited' → in_bounds g0 p) ∧
  (length queue' + size visited = length queue + size visited')%nat.
Proof.
  induction directions as [|[dr dc] directions IH];
    intros queue visited queue' visited' Hbox Hscan; simpl in Hscan.
  { by simplify_eq. }
  destruct (bool_decide (0 ≤ row + dr < height g0)) eqn:Hr;
    [|by apply IH]; simpl in Hscan.
  destruct (bool_decide (0 ≤ col + dc < width g0)) eqn:Hc;
    [|by apply IH]; simpl in Hscan.
  destruct (bool_decide ((row + dr, col + dc) ∈ visited)) eqn:Hv;
    [by apply IH|]; simpl in Hscan.
  apply bool_decide_eq_true_1 in Hr, Hc. apply bool_decide_eq_false_1 in Hv.
  assert (Hadd : scan_neighbors_boundary g original_shape boundary_shape
                   (height g0) (width g0) row col directions
                   (queue ++ [(row + dr, col + dc)])
                   ({[ (row + dr, col + dc) ]} ∪ visited)
                 = Some (queue', visited') →
                 (∀ p, p ∈ visited' → in_bounds g0 p) ∧
                 (length queue' + size visited
                  = length queue + size visited')%nat).
  { intros [Hbox' Hlen]%IH.
    - split; [done|].
      rewrite size_union, size_singleton, length_app in Hlen by set_solver.
      simpl in Hlen. lia.
    - intros p [Hp%elem_of_singleton|Hp]%elem_of_union; [|by apply Hbox].
      subst p. done. }
  destruct (truthy boundary_shape);
    destruct (grid_get g (row + dr) (col + dc)) as [v|]; try done.
  - destruct (bool_decide (Some v = boundary_shape)); [by apply IH|].
    destruct (bool_decide (v = original_shape)); [by apply Hadd|by apply IH].
  - destruct (bool_decide (v = original_shape)); [by apply Hadd|by apply IH].
Qed.

Lemma fill_loop_boundary_enough original_shape new_shape boundary_shape g0
    fuel :
  ∀ g queue visited n,
  (∀ p, p ∈ visited → in_bounds g0 p) →
  (length queue + Z.to_nat (height g0 * width g0) - size visited < fuel)%nat →
  is_Some (fill_loop_boundary fuel original_shape new_shape boundary_shape
             (height g0) (width g0) g queue visited n).
Proof.
  induction fuel as [|fuel IH]; intros g queue visited n Hbox Hfuel; [lia|].
  pose proof (size_in_bounds g0 visited Hbox) as Hsize.
  cbn [fill_loop_boundary]. destruct queue as [|[row col] queue]; [done|].
  destruct (grid_get g row col) as [v|]; [|done].
  simpl in Hfuel. case_bool_decide; [|apply IH; [done|lia]].
  destruct (grid_set g row col new_shape) as [g1|]; [|done].
  destruct (scan_neighbors_boundary _ _ _ _ _ _ _ _ _ _)
    as [[queue2 visited2]|] eqn:Hscan; [|done].
  apply scan_neighbors_boundary_bound in Hscan as [Hbox2 Hlen]; [|done].
  pose proof (size_in_bounds g0 visited2 Hbox2).
  apply IH; [done|lia].
Qed.

(** ** Consequences for the three functions *)

Lemma perform_flood_fill_filled g row col original_shape new_shape :
  rectangular g → in_bounds g (row, col) →
  cell g (row, col) = Some original_shape →
  original_shape ≠ new_shape →
  ∃ g' comp,
    perform_flood_fill g row col new_shape
    = Some (g', Returned (Z.of_nat (size comp))) ∧
    filled cardinal_directions g (row, col) original_shape new_shape g' comp.
Proof.
  intros Hrect Hin Hcell Hne.
  rewrite (perform_flood_fill_in_bounds _ _ _ _ _ Hin Hcell).
  rewrite bool_decide_eq_false_2 by done.
  by apply fill_loop_filled.
Qed.

Lemma flood_fill_diagonal_filled g row col original_shape new_shape :
  rectangular g → in_bounds g (row, col) →
  cell g (row, col) = Some original_shape →
  original_shape ≠ new_shape →
  ∃ g' comp,
    flood_fill_diagonal g row col new_shape
    = Some (g', Returned (Z.of_nat (size comp))) ∧
    filled diagonal_directions g (row, col) original_shape new_shape g' comp.
Proof.
  intros Hrect Hin Hcell Hne.
  rewrite (flood_fill_diagonal_in_bounds _ _ _ _ _ Hin Hcell).
  rewrite bool_decide_eq_false_2 by done.
  by apply fill_loop_filled.
Qed.

(** The rewritten cells are exactly the cells on which the two grids
    differ. *)
Lemma filled_changed_cells directions g seed original_shape new_shape g' comp :
  original_shape ≠ new_shape →
  filled directions g seed original_shape new_shape g' comp →
  length (changed_cells g g') = size comp.
Proof.
  intros Hne [_ _ _ Hcomp Hcells].
  unfold changed_cells.
  rewrite <- (size_list_to_set (C:=gset coord))
    by apply NoDup_filter, NoDup_all_coords.
  f_equal. apply set_eq. intros p.
  rewrite elem_of_list_to_set, list_elem_of_filter, elem_of_all_coords.
  rewrite Hcells. case_decide as Hp; split; try tauto.
  intros _. apply Hcomp in Hp.
  pose proof (connected_in_bounds _ _ _ _ _ Hp) as Hin.
  apply connected_through in Hp as (v & Hv & ->).
  split; [|done]. rewrite Hv. congruence.
Qed.

(** Nothing differs between a grid and itself. *)
Lemma changed_cells_same g : changed_cells g g = [].
Proof.
  unfold changed_cells. induction (all_coords g) as [|p l IH]; [done|].
  rewrite filter_cons_False by (intros Hp; by apply Hp). done.
Qed.

(** A seed outside the grid: the call raises before it reads or writes any
    cell. *)
Lemma seed_test_false g row col :
  ¬ in_bounds g (row, col) →
  negb (bool_decide (0 ≤ row < height g) && bool_decide (0 ≤ col < width g))
  = true.
Proof.
  intros Hout. apply negb_true_iff, not_true_is_false. intros Ht.
  apply andb_prop in Ht as [Hr Hc]. apply bool_decide_eq_true_1 in Hr, Hc.
  by apply Hout.
Qed.

Lemma outside_raises g row col new_shape boundary_shape :
  ¬ in_bounds g (row, col) →
  perform_flood_fill g row col new_shape = Some (g, IndexError) ∧
  flood_fill_diagonal g row col new_shape = Some (g, IndexError) ∧
  flood_fill_with_boundary g row col new_shape boundary_shape
  = Some (g, IndexError).
Proof.
  intros Hout%seed_test_false.
  unfold perform_flood_fill, flood_fill_diagonal, flood_fill_with_boundary.
  by rewrite Hout.
Qed.


(** ** The contract *)

Local Ltac concrete_bounds :=
  unfold in_bounds; vm_compute; intuition (discriminate || congruence).

(** Connectivity completeness over value grids (rows that are distinct
    objects). On a rectangular grid, with an in-bounds
    seed and a replacement value different from the seed's value,
    [perform_flood_fill] (4 directions) and [flood_fill_diagonal]
    (8 directions) return, and afterwards every cell connected to the seed
    through cells that held the seed's original value holds the replacement
    value, and every other cell holds what it held before. *)
Theorem connectivity_completeness g row col original_shape new_shape :
  rectangular g → in_bounds g (row, col) →
  cell g (row, col) = Some original_shape →
  new_shape ≠ original_shape →
  (∃ g' n,
     perform_flood_fill g row col new_shape = Some (g', Returned n) ∧
     ∀ p,
       (connected cardinal_directions g (λ v, v = original_shape) (row, col) p
        → cell g' p = Some new_shape) ∧
       (¬ connected cardinal_directions g (λ v, v = original_shape)
            (row, col) p
        → cell g' p = cell g p)) ∧
  (∃ g' n,
     flood_fill_diagonal g row col new_shape = Some (g', Returned n) ∧
     ∀ p,
       (connected diagonal_directions g (λ v, v = original_shape) (row, col) p
        → cell g' p = Some new_shape) ∧
       (¬ connected diagonal_directions g (λ v, v = original_shape)
            (row, col) p
        → cell g' p = cell g p)).
Proof.
  intros Hrect Hin Hcell Hne. split.
  - destruct (perform_flood_fill_filled g row col original_shape new_shape)
      as (g' & comp & Hrun & Hfilled); [done..|].
    exists g', (Z.of_nat (size comp)). split; [done|].
    intros p. rewrite (filled_cells _ _ _ _ _ _ _ Hfilled).
    rewrite <- (filled_comp _ _ _ _ _ _ _ Hfilled).
    split; intros Hp; [by rewrite decide_True|by rewrite decide_False].
  - destruct (flood_fill_diagonal_filled g row col original_shape new_shape)
      as (g' & comp & Hrun & Hfilled); [done..|].
    exists g', (Z.of_nat (size comp)). split; [done|].
    intros p. rewrite (filled_cells _ _ _ _ _ _ _ Hfilled).
    rewrite <- (filled_comp _ _ _ _ _ _ _ Hfilled).
    split; intros Hp; [by rewrite decide_True|by rewrite decide_False].
Qed.

(** C5 (out of bounds). For every grid, rectangular or not, and every seed
    outside of it, each of the three functions raises [IndexError] and
    leaves the grid as it was. *)
Theorem out_of_bounds_raises g row col new_shape boundary_shape :
  ¬ in_bounds g (row, col) →
  perform_flood_fill g row col new_shape = Some (g, IndexError) ∧
  flood_fill_diagonal g row col new_shape = Some (g, IndexError) ∧
  flood_fill_with_boundary g row col new_shape boundary_shape
  = Some (g, IndexError).
Proof. apply outside_raises. Qed.

Lemma out_of_bounds_raises_witness :
  perform_flood_fill scenario_grid 5 5 "O" = Some (scenario_grid, IndexError) ∧
  flood_fill_diagonal scenario_grid 5 5 "O"
  = Some (scenario_grid, IndexError) ∧
  flood_fill_with_boundary scenario_grid 5 5 "O" (Some "X"%string)
  = Some (scenario_grid, IndexError).
Proof.
  apply (out_of_bounds_raises scenario_grid 5 5 "O" (Some "X"%string)).
  concrete_bounds.
Defined.

(** C6 (no-op law). If the seed is in bounds and already holds the
    replacement value, each of the three functions returns 0 and the grid is
    what it was. *)
Theorem already_filled_noop g row col new_shape boundary_shape :
  in_bounds g (row, col) → cell g (row, col) = Some new_shape →
  perform_flood_fill g row col new_shape = Some (g, Returned 0) ∧
  flood_fill_diagonal g row col new_shape = Some (g, Returned 0) ∧
  flood_fill_with_boundary g row col new_shape boundary_shape
  = Some (g, Returned 0).
Proof.
  intros Hin Hcell.
  rewrite (flood_fill_with_boundary_in_bounds _ _ _ _ _ _ Hin Hcell).
  rewrite (perform_flood_fill_in_bounds _ _ _ _ _ Hin Hcell).
  rewrite (flood_fill_diagonal_in_bounds _ _ _ _ _ Hin Hcell).
  rewrite bool_decide_eq_true_2 by done.
  split_and!; [done|done|]. by destruct (_ && _).
Qed.

Lemma already_filled_noop_witness :
  perform_flood_fill scenario_grid 0 0 "X" = Some (scenario_grid, Returned 0) ∧
  flood_fill_diagonal scenario_grid 0 0 "X"
  = Some (scenario_grid, Returned 0) ∧
  flood_fill_with_boundary scenario_grid 0 0 "X" (Some "-"%string)
  = Some (scenario_grid, Returned 0).
Proof.
  apply (already_filled_noop scenario_grid 0 0 "X" (Some "-"%string)).
  - concrete_bounds.
  - reflexivity.
Defined.


(** C10 (empty grid). On the grid without rows, and on a grid whose first
    row is empty, each of the three functions raises [IndexError] for every
    seed, and nothing else happens. *)
Theorem empty_grid_raises row col new_shape boundary_shape :
  (perform_flood_fill [] row col new_shape = Some ([], IndexError) ∧
   flood_fill_diagonal [] row col new_shape = Some ([], IndexError) ∧
   flood_fill_with_boundary [] row col new_shape boundary_shape
   = Some ([], IndexError)) ∧
  (∀ rows : grid,
     perform_flood_fill ([] :: rows) row col new_shape
     = Some ([] :: rows, IndexError) ∧
     flood_fill_diagonal ([] :: rows) row col new_shape
     = Some ([] :: rows, IndexError) ∧
     flood_fill_with_boundary ([] :: rows) row col new_shape boundary_shape
     = Some ([] :: rows, IndexError)).
Proof.
  split; [|intros rows]; apply outside_raises.
  - unfold in_bounds, height. simpl. lia.
  - unfold in_bounds. rewrite width_cons. simpl. lia.
Qed.

(** Every cell of a component is connected to a seed whose own value
    passes the test. *)
Lemma connected_seed_through directions g through seed p :
  connected directions g through seed p →
  ∃ v, cell g seed = Some v ∧ through v.
Proof. induction 1; eauto. Qed.

Lemma cardinal_diagonal : cardinal_directions ⊆ diagonal_directions.
Proof. unfold cardinal_directions, diagonal_directions. set_solver. Qed.

(** After the early return of [flood_fill_with_boundary] the original value
    is not the boundary value, unless the boundary value is the empty
    string. *)
Lemma past_boundary_test original_shape boundary_shape :
  truthy boundary_shape && bool_decide (Some original_shape = boundary_shape)
  = false →
  (boundary_shape = Some ""%string → original_shape ≠ ""%string) →
  Some original_shape ≠ boundary_shape.
Proof.
  intros Htest Hslip <-. simpl in Htest.
  rewrite (bool_decide_eq_true_2 (Some original_shape = Some original_shape))
    in Htest by done.
  rewrite andb_true_r in Htest.
  apply negb_false_iff, bool_decide_eq_true_1 in Htest.
  subst. by apply Hslip.
Qed.

(** Count correctness over value grids (rows that are distinct objects).
    On a rectangular grid with an
    in-bounds seed, each of the three functions returns the number of cells
    whose value the call changed. When the replacement value differs from
    the seed's original value, that number is the size of the component of
    the seed: under 4 directions for [perform_flood_fill], under 8 for
    [flood_fill_diagonal], and for [flood_fill_with_boundary] under 4
    directions through the cells that hold the original value and not the
    boundary value (the case of an empty string as boundary value standing
    at the seed is left out). *)
Theorem count_correctness g row col original_shape new_shape boundary_shape :
  rectangular g → in_bounds g (row, col) →
  cell g (row, col) = Some original_shape →
  (∃ g' n,
     perform_flood_fill g row col new_shape = Some (g', Returned n) ∧
     n = Z.of_nat (length (changed_cells g g')) ∧
     (new_shape ≠ original_shape →
      component_size cardinal_directions g (λ v, v = original_shape)
        (row, col) n)) ∧
  (∃ g' n,
     flood_fill_diagonal g row col new_shape = Some (g', Returned n) ∧
     n = Z.of_nat (length (changed_cells g g')) ∧
     (new_shape ≠ original_shape →
      component_size diagonal_directions g (λ v, v = original_shape)
        (row, col) n)) ∧
  (∃ g' n,
     flood_fill_with_boundary g row col new_shape boundary_shape
     = Some (g', Returned n) ∧
     n = Z.of_nat (length (changed_cells g g')) ∧
     (new_shape ≠ original_shape →
      (boundary_shape = Some ""%string → original_shape ≠ ""%string) →
      component_size cardinal_directions g
        (λ v, v = original_shape ∧ Some v ≠ boundary_shape) (row, col) n)).
Proof.
  intros Hrect Hin Hcell.
  destruct (decide (original_shape = new_shape)) as [<-|Hne].
  { rewrite (flood_fill_with_boundary_in_bounds _ _ _ _ _ _ Hin Hcell).
    rewrite (perform_flood_fill_in_bounds _ _ _ _ _ Hin Hcell).
    rewrite (flood_fill_diagonal_in_bounds _ _ _ _ _ Hin Hcell).
    rewrite bool_decide_eq_true_2 by done.
    split_and!; exists g, 0; rewrite changed_cells_same;
      (split_and!; [by destruct (_ && _) || done|done|done]). }
  destruct (perform_flood_fill_filled g row col original_shape new_shape)
    as (g4 & comp4 & Hrun4 & Hfilled4); [done..|].
  destruct (flood_fill_diagonal_filled g row col original_shape new_shape)
    as (g8 & comp8 & Hrun8 & Hfilled8); [done..|].
  pose proof (filled_changed_cells _ _ _ _ _ _ _ Hne Hfilled4) as Hch4.
  pose proof (filled_changed_cells _ _ _ _ _ _ _ Hne Hfilled8) as Hch8.
  split_and!.
  - exists g4, (Z.of_nat (size comp4)). split_and!; [done|by rewrite Hch4|].
    intros _. exists comp4. split; [|done].
    apply (filled_comp _ _ _ _ _ _ _ Hfilled4).
  - exists g8, (Z.of_nat (size comp8)). split_and!; [done|by rewrite Hch8|].
    intros _. exists comp8. split; [|done].
    apply (filled_comp _ _ _ _ _ _ _ Hfilled8).
  - rewrite (flood_fill_with_boundary_in_bounds _ _ _ _ _ _ Hin Hcell).
    destruct (truthy boundary_shape &&
              bool_decide (Some original_shape = boundary_shape)) eqn:Htest.
    + exists g, 0. rewrite changed_cells_same. split_and!; [done..|].
      intros _ _. exists ∅. split; [|done].
      intros p. split; [set_solver|].
      intros (v & Hv & -> & Hvb)%connected_seed_through.
      rewrite Hcell in Hv. simplify_eq.
      apply andb_prop in Htest as [_ Heq%bool_decide_eq_true_1]. done.
    + exists g4, (Z.of_nat (size comp4)). split_and!; [done|by rewrite Hch4|].
      intros _ Hslip. exists comp4. split; [|done].
      pose proof (past_boundary_test _ _ Htest Hslip) as Hob.
      intros p. rewrite (filled_comp _ _ _ _ _ _ _ Hfilled4).
      split; apply connected_mono; try done; [|tauto].
      by intros v ->.
Qed.

(** Where the replacement value is the seed's value the count is not the
    size of the component: on the one-cell grid holding "X", filled with
    "X", the call returns 0 and changes nothing, while the component of the
    seed has one cell. *)
Lemma count_is_not_component_size_on_noop :
  perform_flood_fill [["X"%string]] 0 0 "X"
  = Some ([["X"%string]], Returned 0) ∧
  component_size cardinal_directions [["X"%string]] (λ v, v = "X"%string)
    (0, 0) 1 ∧
  ¬ component_size cardinal_directions [["X"%string]] (λ v, v = "X"%string)
      (0, 0) 0.
Proof.
  assert (Hseed : connected cardinal_directions [["X"%string]]
                    (λ v, v = "X"%string) (0, 0) (0, 0)).
  { eapply connected_seed; [concrete_bounds|reflexivity|done]. }
  split_and!.
  - reflexivity.
  - exists {[ (0, 0) ]}. split; [|by rewrite size_singleton].
    intros p. rewrite elem_of_singleton. split; [by intros ->|].
    intros [Hr Hc]%connected_in_bounds.
    rewrite width_cons in Hc. unfold height in Hr.
    destruct p as [r c]. simpl in *. f_equal; lia.
  - intros (comp & Hcomp & Hsize).
    assert (size comp = 0%nat) as ->%size_empty_inv%leibniz_equiv by lia.
    apply Hcomp in Hseed. set_solver.
Qed.



(** Monotonicity over value grids (rows that are distinct objects). On a
    rectangular grid with an in-bounds seed, both
    [perform_flood_fill] and [flood_fill_diagonal], each run on the same
    initial grid, return, and the diagonal count is at least the cardinal
    count. On the 2x2 checkerboard with seed (0,0) the cardinal count is 1
    and the diagonal count is 2. *)
Theorem diagonal_count_ge_cardinal :
  (∀ g row col new_shape,
     rectangular g → in_bounds g (row, col) →
     ∃ g4 n4 g8 n8,
       perform_flood_fill g row col new_shape = Some (g4, Returned n4) ∧
       flood_fill_diagonal g row col new_shape = Some (g8, Returned n8) ∧
       n4 ≤ n8) ∧
  (perform_flood_fill checkerboard 0 0 "O"
   = Some ([["O"; "X"]; ["X"; "-"]]%string, Returned 1) ∧
   flood_fill_diagonal checkerboard 0 0 "O"
   = Some ([["O"; "X"]; ["X"; "O"]]%string, Returned 2)).
Proof.
  split; [|by split].
  intros g row col new_shape Hrect Hin.
  destruct (cell_in_bounds g (row, col) Hrect Hin) as [original_shape Hcell].
  destruct (decide (original_shape = new_shape)) as [->|Hne].
  { exists g, 0, g, 0.
    rewrite (perform_flood_fill_in_bounds _ _ _ _ _ Hin Hcell).
    rewrite (flood_fill_diagonal_in_bounds _ _ _ _ _ Hin Hcell).
    by rewrite bool_decide_eq_true_2 by done. }
  destruct (perform_flood_fill_filled g row col original_shape new_shape)
    as (g4 & comp4 & Hrun4 & Hfilled4); [done..|].
  destruct (flood_fill_diagonal_filled g row col original_shape new_shape)
    as (g8 & comp8 & Hrun8 & Hfilled8); [done..|].
  exists g4, (Z.of_nat (size comp4)), g8, (Z.of_nat (size comp8)).
  split_and!; [done..|].
  apply inj_le, subseteq_size. intros p Hp.
  apply (filled_comp _ _ _ _ _ _ _ Hfilled8).
  apply (filled_comp _ _ _ _ _ _ _ Hfilled4) in Hp.
  eapply connected_mono; [apply cardinal_diagonal| |done]. done.
Qed.

(** ** The boundary value *)

(** Containment by a non-empty boundary value, over value grids. With a
    non-empty
    boundary value, on a rectangular grid with an in-bounds seed,
    [flood_fill_with_boundary] returns and changes no cell that held the
    boundary value, and no cell that the seed reaches only across cells
    holding the boundary value. *)
Lemma boundary_containment g row col new_shape boundary :
  rectangular g → in_bounds g (row, col) → boundary ≠ ""%string →
  ∃ g' n,
    flood_fill_with_boundary g row col new_shape (Some boundary)
    = Some (g', Returned n) ∧
    (∀ p, cell g p = Some boundary → cell g' p = Some boundary) ∧
    (∀ p,
       ¬ connected cardinal_directions g (λ v, v ≠ boundary) (row, col) p →
       cell g' p = cell g p).
Proof.
  intros Hrect Hin Hb.
  destruct (cell_in_bounds g (row, col) Hrect Hin) as [original_shape Hcell].
  rewrite (flood_fill_with_boundary_in_bounds _ _ _ _ _ _ Hin Hcell).
  simpl. rewrite (bool_decide_eq_false_2 (boundary = ""%string)) by done.
  simpl. case_bool_decide as Hob; [by exists g, 0|].
  rewrite (perform_flood_fill_in_bounds _ _ _ _ _ Hin Hcell).
  case_bool_decide as Hne; [by exists g, 0|].
  destruct (perform_flood_fill_filled g row col original_shape new_shape)
    as (g' & comp & Hrun & Hfilled); [done..|].
  rewrite (perform_flood_fill_in_bounds _ _ _ _ _ Hin Hcell) in Hrun.
  rewrite bool_decide_eq_false_2 in Hrun by done.
  exists g', (Z.of_nat (size comp)). split; [done|].
  assert (Hcomp : ∀ p, p ∈ comp →
            cell g p = Some original_shape ∧
            connected cardinal_directions g (λ v, v ≠ boundary) (row, col) p).
  { intros p Hp%(filled_comp _ _ _ _ _ _ _ Hfilled). split.
    - by apply connected_through in Hp as (v & ? & ->).
    - eapply connected_mono; [done| |done]. intros v -> ->. done. }
  split; intros p Hp; rewrite (filled_cells _ _ _ _ _ _ _ Hfilled).
  - rewrite decide_False; [done|]. intros [Hc _]%Hcomp. congruence.
  - rewrite decide_False; [done|]. intros [_ Hc]%Hcomp. done.
Qed.

(** X11 (seed on a non-empty boundary value). With a non-empty boundary
    value standing at the in-bounds seed, [flood_fill_with_boundary] returns
    0 and the grid is what it was, on every grid. *)
Lemma seed_on_boundary g row col new_shape boundary :
  in_bounds g (row, col) → boundary ≠ ""%string →
  cell g (row, col) = Some boundary →
  flood_fill_with_boundary g row col new_shape (Some boundary)
  = Some (g, Returned 0).
Proof.
  intros Hin Hb Hcell.
  rewrite (flood_fill_with_boundary_in_bounds _ _ _ _ _ _ Hin Hcell).
  simpl. rewrite (bool_decide_eq_false_2 (boundary = ""%string)) by done.
  by rewrite bool_decide_eq_true_2.
Qed.

(** C3 (boundary containment) at an empty string as boundary value: the
    only cell holds the boundary value and is rewritten. [boundary_shape]
    is tested for truth, and the empty string is false, so the boundary
    value is ignored. *)
Theorem empty_boundary_cell_mutated :
  cell [[""%string]] (0, 0) = Some ""%string ∧
  flood_fill_with_boundary [[""%string]] 0 0 "X" (Some ""%string)
  = Some ([["X"%string]], Returned 1).
Proof. split; reflexivity. Qed.

(** C4 (seed on the boundary) at an empty string as boundary value: the
    seed holds the boundary value, and the call fills it and returns 1
    instead of returning 0 at once. *)
Theorem seed_on_empty_boundary_filled :
  cell [[""%string; "-"%string]] (0, 0) = Some ""%string ∧
  flood_fill_with_boundary [[""%string; "-"%string]] 0 0 "X" (Some ""%string)
  = Some ([["X"%string; "-"%string]], Returned 1).
Proof. split; reflexivity. Qed.

(** ** Runs of the embedding on small grids *)

Example scenario_cardinal :
  perform_flood_fill scenario_grid 2 2 "O"
  = Some ([["X"; "X"; "O"]; ["X"; "O"; "O"]; ["O"; "O"; "O"]]%string,
          Returned 6).
Proof. reflexivity. Qed.

Example scenario_walled :
  flood_fill_with_boundary walled_grid 1 1 "O" (Some "#"%string)
  = Some ([["#"; "#"; "#"]; ["#"; "O"; "#"]; ["#"; "#"; "#"]]%string,
          Returned 1).
Proof. reflexivity. Qed.

(** ** Every grid, every way out

    The facts of this part hold without any assumption on the grid (rows
    may differ in length) and also when the call ends with [IndexError]
    in the middle of the traversal. *)





(** A call either fails at the seed, leaving the grid alone, or has an
    in-bounds seed that holds a value. *)
Lemma fill_cases g row col new_shape boundary_shape :
  (perform_flood_fill g row col new_shape = Some (g, IndexError) ∧
   flood_fill_diagonal g row col new_shape = Some (g, IndexError) ∧
   flood_fill_with_boundary g row col new_shape boundary_shape
   = Some (g, IndexError)) ∨
  (∃ original_shape,
     in_bounds g (row, col) ∧ cell g (row, col) = Some original_shape).
Proof.
  destruct (decide (in_bounds g (row, col))) as [Hin|Hout];
    [|left; by apply outside_raises].
  destruct (cell g (row, col)) as [original_shape|] eqn:Hcell; [by eauto|].
  left. destruct Hin as [Hr Hc]. simpl in Hr, Hc.
  unfold perform_flood_fill, flood_fill_diagonal, flood_fill_with_boundary.
  rewrite (bool_decide_eq_true_2 _ Hr), (bool_decide_eq_true_2 _ Hc).
  cbn [andb negb]. by rewrite grid_get_cell, Hcell by lia.
Qed.



(** Termination over value grids. On every grid, rectangular or not, and
    for all
    arguments, each of the three functions ends, by returning or by raising:
    the [while] loop never needs more than [height * width + 1]
    iterations. *)
Theorem fill_ends_on_every_grid g row col new_shape boundary_shape :
  is_Some (perform_flood_fill g row col new_shape) ∧
  is_Some (flood_fill_diagonal g row col new_shape) ∧
  is_Some (flood_fill_with_boundary g row col new_shape boundary_shape).
Proof.
  destruct (fill_cases g row col new_shape boundary_shape)
    as [(-> & -> & ->)|(original_shape & Hin & Hcell)]; [done|].
  assert (Hbox : ∀ p, p ∈ ({[ (row, col) ]} : gset coord) → in_bounds g p)
    by (by intros p ->%elem_of_singleton).
  assert (Hfuel : (length [(row, col)] + Z.to_nat (height g * width g)
                   - size ({[ (row, col) ]} : gset coord) < iterations g)%nat).
  { rewrite size_singleton. unfold iterations. simpl. lia. }
  rewrite (flood_fill_with_boundary_in_bounds _ _ _ _ _ _ Hin Hcell).
  rewrite (perform_flood_fill_in_bounds _ _ _ _ _ Hin Hcell).
  rewrite (flood_fill_diagonal_in_bounds _ _ _ _ _ Hin Hcell).
  destruct (_ && _), (bool_decide (original_shape = new_shape));
    split_and!; try done; by apply fill_loop_enough.
Qed.





(** ** Rectangular grids: further consequences *)

(** On a rectangular grid a call with an in-bounds seed returns. *)
Lemma in_bounds_returns g row col new_shape boundary_shape :
  rectangular g → in_bounds g (row, col) →
  (∃ g' n, perform_flood_fill g row col new_shape = Some (g', Returned n)) ∧
  (∃ g' n, flood_fill_diagonal g row col new_shape = Some (g', Returned n)) ∧
  (∃ g' n, flood_fill_with_boundary g row col new_shape boundary_shape
           = Some (g', Returned n)).
Proof.
  intros Hrect Hin.
  destruct (cell_in_bounds g (row, col) Hrect Hin) as [original_shape Hcell].
  rewrite (flood_fill_with_boundary_in_bounds _ _ _ _ _ _ Hin Hcell).
  destruct (decide (original_shape = new_shape)) as [Heq|Hne].
  { rewrite (perform_flood_fill_in_bounds _ _ _ _ _ Hin Hcell).
    rewrite (flood_fill_diagonal_in_bounds _ _ _ _ _ Hin Hcell).
    rewrite bool_decide_eq_true_2 by done.
    destruct (_ && _); split_and!; by exists g, 0. }
  destruct (perform_flood_fill_filled g row col original_shape new_shape)
    as (g4 & comp4 & -> & _); [done..|].
  destruct (flood_fill_diagonal_filled g row col original_shape new_shape)
    as (g8 & comp8 & -> & _); [done..|].
  destruct (_ && _); split_and!; by eexists _, _.
Qed.





(** Two rectangular grids of the same dimensions with the same cells are
    the same grid. *)
Lemma grid_ext g g' :
  height g = height g' → width g = width g' →
  rectangular g → rectangular g' →
  (∀ p, cell g p = cell g' p) → g = g'.
Proof.
  intros Hh Hw Hrect Hrect' Hcells. unfold height in Hh.
  apply list_eq. intros i.
  destruct (g !! i) as [r|] eqn:Hi, (g' !! i) as [r'|] eqn:Hi'.
  - f_equal. apply list_eq. intros j.
    pose proof (Hcells (Z.of_nat i, Z.of_nat j)) as Hc. unfold cell in Hc.
    simpl in Hc. rewrite bool_decide_eq_true_2 in Hc by lia.
    rewrite !Nat2Z.id, Hi, Hi' in Hc. done.
  - apply lookup_lt_Some in Hi. apply lookup_ge_None in Hi'. lia.
  - apply lookup_ge_None in Hi. apply lookup_lt_Some in Hi'. lia.
  - done.
Qed.

Lemma connected_trans directions g through a b c :
  connected directions g through a b →
  connected directions g through b c →
  connected directions g through a c.
Proof. intros Hab. induction 1; [done|]. by eapply connected_step. Qed.

(** Where every direction has its opposite, connectivity is symmetric. *)
Lemma connected_sym directions g through a b :
  (∀ d, d ∈ directions → (- d.1, - d.2) ∈ directions) →
  connected directions g through a b →
  connected directions g through b a.
Proof.
  intros Hopp. induction 1 as [v Hin Hcell Hv|p d v Hp IH Hd Hin Hcell Hv].
  { by eapply connected_seed. }
  eapply connected_trans; [|exact IH].
  pose proof (connected_in_bounds _ _ _ _ _ Hp) as Hinp.
  destruct (connected_through _ _ _ _ _ Hp) as (vp & Hcellp & Hvp).
  assert (Hback : move (move p d) (- d.1, - d.2) = p).
  { destruct p, d. unfold move. simpl. f_equal; lia. }
  assert (Hstep : connected directions g through (move p d)
                    (move (move p d) (- d.1, - d.2))).
  { eapply connected_step;
      [by eapply connected_seed|by apply Hopp
      |by rewrite Hback|by rewrite Hback|done]. }
  by rewrite Hback in Hstep.
Qed.

Lemma cardinal_opposite d :
  d ∈ cardinal_directions → (- d.1, - d.2) ∈ cardinal_directions.
Proof.
  unfold cardinal_directions. rewrite !elem_of_cons, !elem_of_nil.
  intros [->|[->|[->|[->|[]]]]]; simpl; tauto.
Qed.

Lemma diagonal_opposite d :
  d ∈ diagonal_directions → (- d.1, - d.2) ∈ diagonal_directions.
Proof.
  unfold diagonal_directions. rewrite !elem_of_cons, !elem_of_nil.
  intros [->|[->|[->|[->|[->|[->|[->|[->|[]]]]]]]]]; simpl; tauto.
Qed.

(** Two completed fills of one grid from seeds of the same component leave
    the same grid and rewrite the same cells. *)
Lemma filled_same_region directions g seed seed' original_shape new_shape
    g1 comp1 g2 comp2 :
  (∀ d, d ∈ directions → (- d.1, - d.2) ∈ directions) →
  connected directions g (λ v, v = original_shape) seed seed' →
  filled directions g seed original_shape new_shape g1 comp1 →
  filled directions g seed' original_shape new_shape g2 comp2 →
  g2 = g1 ∧ comp2 = comp1.
Proof.
  intros Hopp Hss' [Hh1 Hw1 Hrect1 Hcomp1 Hcells1] [Hh2 Hw2 Hrect2 Hcomp2 Hcells2].
  assert (Hcomp : comp2 = comp1).
  { apply set_eq. intros p. rewrite Hcomp1, Hcomp2. split; intros Hp.
    - by eapply connected_trans.
    - eapply connected_trans; [|done]. by apply connected_sym. }
  split; [|done].
  apply grid_ext; [congruence..|done|done|].
  intros p. by rewrite Hcells1, Hcells2, Hcomp.
Qed.

(** The seed within a region, over value grids. On a rectangular grid, a
    call seeded at
    any cell connected to [(row, col)] through cells holding the same value
    ends exactly as the call seeded at [(row, col)]: same final grid, same
    count. This holds for [perform_flood_fill] with 4 directions and for
    [flood_fill_diagonal] with 8. *)
Theorem same_region_same_result g row col row' col' original_shape new_shape :
  rectangular g →
  (connected cardinal_directions g (λ v, v = original_shape)
     (row, col) (row', col') →
   perform_flood_fill g row' col' new_shape =
   perform_flood_fill g row col new_shape) ∧
  (connected diagonal_directions g (λ v, v = original_shape)
     (row, col) (row', col') →
   flood_fill_diagonal g row' col' new_shape =
   flood_fill_diagonal g row col new_shape).
Proof.
  intros Hrect. split; intros Hconn.
  - pose proof (connected_in_bounds _ _ _ _ _ Hconn) as Hin'.
    destruct (connected_through _ _ _ _ _ Hconn) as (v & Hcell' & ->).
    destruct (connected_seed_through _ _ _ _ _ Hconn) as (v & Hcell & ->).
    assert (Hin : in_bounds g (row, col)).
    { apply connected_sym in Hconn; [|apply cardinal_opposite].
      by eapply connected_in_bounds. }
    destruct (decide (original_shape = new_shape)) as [Heq|Hne].
    { rewrite (perform_flood_fill_in_bounds _ _ _ _ _ Hin Hcell).
      rewrite (perform_flood_fill_in_bounds _ _ _ _ _ Hin' Hcell').
      by rewrite bool_decide_eq_true_2. }
    destruct (perform_flood_fill_filled g row col original_shape new_shape)
      as (g1 & comp1 & -> & Hfilled1); [done..|].
    destruct (perform_flood_fill_filled g row' col' original_shape new_shape)
      as (g2 & comp2 & -> & Hfilled2); [done..|].
    destruct (filled_same_region _ _ _ _ _ _ _ _ _ _ cardinal_opposite
                Hconn Hfilled1 Hfilled2) as [-> ->]. done.
  - pose proof (connected_in_bounds _ _ _ _ _ Hconn) as Hin'.
    destruct (connected_through _ _ _ _ _ Hconn) as (v & Hcell' & ->).
    destruct (connected_seed_through _ _ _ _ _ Hconn) as (v & Hcell & ->).
    assert (Hin : in_bounds g (row, col)).
    { apply connected_sym in Hconn; [|apply diagonal_opposite].
      by eapply connected_in_bounds. }
    destruct (decide (original_shape = new_shape)) as [Heq|Hne].
    { rewrite (flood_fill_diagonal_in_bounds _ _ _ _ _ Hin Hcell).
      rewrite (flood_fill_diagonal_in_bounds _ _ _ _ _ Hin' Hcell').
      by rewrite bool_decide_eq_true_2. }
    destruct (flood_fill_diagonal_filled g row col original_shape new_shape)
      as (g1 & comp1 & -> & Hfilled1); [done..|].
    destruct (flood_fill_diagonal_filled g row' col' original_shape new_shape)
      as (g2 & comp2 & -> & Hfilled2); [done..|].
    destruct (filled_same_region _ _ _ _ _ _ _ _ _ _ diagonal_opposite
                Hconn Hfilled1 Hfilled2) as [-> ->]. done.
Qed.

Lemma scenario_connected :
  connected cardinal_directions scenario_grid (λ v, v = "-"%string)
    (2, 2) (0, 2).
Proof.
  assert (H0 : connected cardinal_directions scenario_grid
                 (λ v, v = "-"%string) (2, 2) (2, 2)).
  { eapply connected_seed; [concrete_bounds|reflexivity|done]. }
  assert (H1 : connected cardinal_directions scenario_grid
                 (λ v, v = "-"%string) (2, 2) (move (2, 2) (-1, 0))).
  { eapply connected_step;
      [exact H0|apply list_elem_of_here|concrete_bounds|reflexivity|done]. }
  change (0, 2) with (move (move (2, 2) (-1, 0)) (-1, 0)).
  eapply connected_step;
    [exact H1|apply list_elem_of_here|concrete_bounds|reflexivity|done].
Qed.




(** 4 directions inside 8, over value grids. On a rectangular grid with
    an in-bounds
    seed, every cell that [perform_flood_fill] changes is changed in the
    same way by [flood_fill_diagonal] run on the same initial grid. *)
Theorem cardinal_cells_in_diagonal g row col new_shape :
  rectangular g → in_bounds g (row, col) →
  ∃ g4 n4 g8 n8,
    perform_flood_fill g row col new_shape = Some (g4, Returned n4) ∧
    flood_fill_diagonal g row col new_shape = Some (g8, Returned n8) ∧
    ∀ p, cell g4 p ≠ cell g p → cell g8 p = cell g4 p.
Proof.
  intros Hrect Hin.
  destruct (cell_in_bounds g (row, col) Hrect Hin) as [original_shape Hcell].
  destruct (decide (original_shape = new_shape)) as [->|Hne].
  { exists g, 0, g, 0.
    rewrite (perform_flood_fill_in_bounds _ _ _ _ _ Hin Hcell).
    rewrite (flood_fill_diagonal_in_bounds _ _ _ _ _ Hin Hcell).
    by rewrite bool_decide_eq_true_2 by done. }
  destruct (perform_flood_fill_filled g row col original_shape new_shape)
    as (g4 & comp4 & Hrun4 & Hfilled4); [done..|].
  destruct (flood_fill_diagonal_filled g row col original_shape new_shape)
    as (g8 & comp8 & Hrun8 & Hfilled8); [done..|].
  exists g4, (Z.of_nat (size comp4)), g8, (Z.of_nat (size comp8)).
  split_and!; [done..|].
  intros p. rewrite (filled_cells _ _ _ _ _ _ _ Hfilled4).
  rewrite (filled_cells _ _ _ _ _ _ _ Hfilled8).
  case_decide as Hp; [intros _|done].
  rewrite decide_True; [done|].
  apply (filled_comp _ _ _ _ _ _ _ Hfilled8).
  apply (filled_comp _ _ _ _ _ _ _ Hfilled4) in Hp.
  eapply connected_mono; [apply cardinal_diagonal| |done]. done.
Qed.





Lemma seed_on_boundary_witness :
  flood_fill_with_boundary walled_grid 0 1 "O" (Some "#"%string)
  = Some (walled_grid, Returned 0).
Proof.
  apply (seed_on_boundary walled_grid 0 1 "O" "#").
  - concrete_bounds.
  - discriminate.
  - reflexivity.
Defined.



(** In a grid whose cells all pass the test, a straight run of steps in
    one direction that stays inside the grid stays connected. *)
Lemma connected_ray directions g (through : string → Prop) seed d :
  (∀ q, in_bounds g q → ∃ v, cell g q = Some v ∧ through v) →
  d ∈ directions →
  ∀ (n : nat) p,
    connected directions g through seed p →
    (∀ i : nat, (i ≤ n)%nat →
       in_bounds g (p.1 + Z.of_nat i * d.1, p.2 + Z.of_nat i * d.2)) →
    connected directions g through seed
      (p.1 + Z.of_nat n * d.1, p.2 + Z.of_nat n * d.2).
Proof.
  intros Hall Hd. induction n as [|n IH]; intros p Hp Hray.
  { replace (p.1 + Z.of_nat 0 * d.1, p.2 + Z.of_nat 0 * d.2) with p; [done|].
    destruct p. simpl. f_equal; lia. }
  replace (p.1 + Z.of_nat (S n) * d.1, p.2 + Z.of_nat (S n) * d.2)
    with (move (p.1 + Z.of_nat n * d.1, p.2 + Z.of_nat n * d.2) d)
    by (unfold move; simpl; f_equal; lia).
  assert (Hin : in_bounds g
            (move (p.1 + Z.of_nat n * d.1, p.2 + Z.of_nat n * d.2) d)).
  { replace (move (p.1 + Z.of_nat n * d.1, p.2 + Z.of_nat n * d.2) d)
      with (p.1 + Z.of_nat (S n) * d.1, p.2 + Z.of_nat (S n) * d.2)
      by (unfold move; simpl; f_equal; lia).
    by apply Hray. }
  destruct (Hall _ Hin) as (v & Hcell & Hv).
  eapply connected_step; [|done..].
  apply IH; [done|]. intros i Hi. apply Hray. lia.
Qed.

(** In a rectangular grid whose cells all hold [v], every cell is
    connected to every other one by steps in the four directions. *)
Lemma uniform_connected g v seed p :
  rectangular g →
  (∀ q, in_bounds g q → cell g q = Some v) →
  in_bounds g seed → in_bounds g p →
  connected cardinal_directions g (λ x, x = v) seed p.
Proof.
  intros Hrect Hall [Hsr Hsc] [Hpr Hpc].
  assert (Hall' : ∀ q, in_bounds g q → ∃ x, cell g q = Some x ∧ x = v)
    by eauto.
  assert (H0 : connected cardinal_directions g (λ x, x = v) seed seed).
  { eapply connected_seed; [by split|by apply Hall|done]. }
  assert (H1 : connected cardinal_directions g (λ x, x = v) seed
                 (p.1, seed.2)).
  { destruct (decide (seed.1 ≤ p.1)).
    - pose proof (connected_ray cardinal_directions g _ seed (1, 0) Hall'
        ltac:(unfold cardinal_directions; set_solver)
        (Z.to_nat (p.1 - seed.1)) seed H0) as Hray. simpl in Hray.
      replace (seed.1 + Z.of_nat (Z.to_nat (p.1 - seed.1)) * 1,
               seed.2 + Z.of_nat (Z.to_nat (p.1 - seed.1)) * 0)
        with (p.1, seed.2) in Hray by (f_equal; lia).
      apply Hray. intros i Hi. split; simpl; lia.
    - pose proof (connected_ray cardinal_directions g _ seed (-1, 0) Hall'
        ltac:(unfold cardinal_directions; set_solver)
        (Z.to_nat (seed.1 - p.1)) seed H0) as Hray. simpl in Hray.
      replace (seed.1 + Z.of_nat (Z.to_nat (seed.1 - p.1)) * -1,
               seed.2 + Z.of_nat (Z.to_nat (seed.1 - p.1)) * 0)
        with (p.1, seed.2) in Hray by (f_equal; lia).
      apply Hray. intros i Hi. split; simpl; lia. }
  destruct (decide (seed.2 ≤ p.2)).
  - pose proof (connected_ray cardinal_directions g _ seed (0, 1) Hall'
      ltac:(unfold cardinal_directions; set_solver)
      (Z.to_nat (p.2 - seed.2)) (p.1, seed.2) H1) as Hray. simpl in Hray.
    replace (p.1 + Z.of_nat (Z.to_nat (p.2 - seed.2)) * 0,
             seed.2 + Z.of_nat (Z.to_nat (p.2 - seed.2)) * 1)
      with p in Hray by (destruct p; simpl in *; f_equal; lia).
    apply Hray. intros i Hi. split; simpl; lia.
  - pose proof (connected_ray cardinal_directions g _ seed (0, -1) Hall'
      ltac:(unfold cardinal_directions; set_solver)
      (Z.to_nat (seed.2 - p.2)) (p.1, seed.2) H1) as Hray. simpl in Hray.
    replace (p.1 + Z.of_nat (Z.to_nat (seed.2 - p.2)) * 0,
             seed.2 + Z.of_nat (Z.to_nat (seed.2 - p.2)) * -1)
      with p in Hray by (destruct p; simpl in *; f_equal; lia).
    apply Hray. intros i Hi. split; simpl; lia.
Qed.

(** A grid of one value, over value grids. On a rectangular grid whose
    cells all hold
    the same value, filled from an in-bounds seed with another value, each
    of the two functions rewrites every cell and returns
    [height * width]. *)
Theorem uniform_grid_filled_entirely g row col v new_shape :
  rectangular g → in_bounds g (row, col) →
  (∀ q, in_bounds g q → cell g q = Some v) →
  new_shape ≠ v →
  (∃ g',
     perform_flood_fill g row col new_shape
     = Some (g', Returned (height g * width g)) ∧
     ∀ q, in_bounds g q → cell g' q = Some new_shape) ∧
  (∃ g',
     flood_fill_diagonal g row col new_shape
     = Some (g', Returned (height g * width g)) ∧
     ∀ q, in_bounds g q → cell g' q = Some new_shape).
Proof.
  intros Hrect Hin Hall Hne.
  assert (Hfull : ∀ directions g' comp,
            cardinal_directions ⊆ directions →
            filled directions g (row, col) v new_shape g' comp →
            Z.of_nat (size comp) = height g * width g ∧
            ∀ q, in_bounds g q → cell g' q = Some new_shape).
  { intros directions g' comp Hdirs Hfilled.
    assert (Hcomp : ∀ q, q ∈ comp ↔ in_bounds g q).
    { intros q. rewrite (filled_comp _ _ _ _ _ _ _ Hfilled). split.
      - apply connected_in_bounds.
      - intros Hq. eapply connected_mono; [exact Hdirs| |].
        + intros x Hx. exact Hx.
        + by apply uniform_connected. }
    split.
    - assert (comp = list_to_set (all_coords g)) as ->.
      { apply set_eq. intros q.
        by rewrite Hcomp, elem_of_list_to_set, elem_of_all_coords. }
      rewrite size_list_to_set by apply NoDup_all_coords.
      rewrite length_all_coords. pose proof (area_nonneg g). lia.
    - intros q Hq. rewrite (filled_cells _ _ _ _ _ _ _ Hfilled).
      rewrite decide_True; [done|]. by apply Hcomp. }
  split.
  - destruct (perform_flood_fill_filled g row col v new_shape)
      as (g' & comp & Hrun & Hfilled); [done|done|by apply Hall|done|].
    destruct (Hfull _ _ _ (reflexivity _) Hfilled) as [Hsize Hcells].
    exists g'. by rewrite Hrun, Hsize.
  - destruct (flood_fill_diagonal_filled g row col v new_shape)
      as (g' & comp & Hrun & Hfilled); [done|done|by apply Hall|done|].
    destruct (Hfull _ _ _ cardinal_diagonal Hfilled) as [Hsize Hcells].
    exists g'. by rewrite Hrun, Hsize.
Qed.

Lemma cell_all g v :
  rectangular g → Forall (Forall (λ x, x = v)) g →
  ∀ q, in_bounds g q → cell g q = Some v.
Proof.
  intros Hrect Hg q Hq.
  destruct (cell_in_bounds g q Hrect Hq) as [x Hx]. rewrite Hx. f_equal.
  unfold cell in Hx. case_bool_decide; [|done].
  destruct (g !! Z.to_nat q.1) as [r|] eqn:Hrow; simpl in Hx; [|done].
  eapply Forall_lookup_1 in Hg; [|done].
  eapply Forall_lookup_1 in Hg; [|done]. done.
Qed.

(** ** The value grids are the store without shared rows

    Reading never depends on sharing; writing agrees when no address
    stands at two positions of the grid. *)

Lemma py_getitem_fmap {A B} (f : A → B) (l : list A) (i : Z) :
  py_getitem (f <$> l) i = f <$> py_getitem l i.
Proof.
  unfold py_getitem. rewrite length_fmap.
  repeat case_bool_decide; by rewrite ?list_lookup_fmap.
Qed.

Lemma py_getitem_nil {A} (i : Z) : py_getitem (@nil A) i = None.
Proof. unfold py_getitem. by repeat case_bool_decide. Qed.

Lemma py_setitem_nil {A} (i : Z) (x : A) : py_setitem [] i x = None.
Proof.
  unfold py_setitem. simpl.
  rewrite (bool_decide_eq_false_2 (0 ≤ i < 0)) by lia.
  by rewrite (bool_decide_eq_false_2 (- 0 ≤ i < 0)) by lia.
Qed.

(** A valid index names one position, the same for reading and writing. *)
Lemma py_getitem_position {A} (l : list A) (i : Z) (a : A) :
  py_getitem l i = Some a →
  ∃ pos, l !! pos = Some a ∧
    ∀ {B} (k : list B) (y : B),
      length k = length l → py_setitem k i y = Some (<[pos:=y]> k).
Proof.
  unfold py_getitem, py_setitem. intros Hget.
  destruct (bool_decide (0 ≤ i)) eqn:Hi.
  - apply bool_decide_eq_true_1 in Hi. exists (Z.to_nat i). split; [done|].
    intros B k y Hk. apply lookup_lt_Some in Hget.
    by rewrite Hk, (bool_decide_eq_true_2 (0 ≤ i < Z.of_nat (length l)))
      by lia.
  - apply bool_decide_eq_false_1 in Hi.
    destruct (bool_decide (- Z.of_nat (length l) ≤ i)) eqn:Hn; [|done].
    apply bool_decide_eq_true_1 in Hn.
    exists (Z.to_nat (Z.of_nat (length l) + i)). split; [done|].
    intros B k y Hk. rewrite Hk.
    rewrite (bool_decide_eq_false_2 (0 ≤ i < Z.of_nat (length l))) by lia.
    by rewrite (bool_decide_eq_true_2 (- Z.of_nat (length l) ≤ i < 0)) by lia.
Qed.

Lemma py_getitem_values h g row :
  py_getitem (values h g) row = (λ l, default [] (h !! l)) <$> py_getitem g row.
Proof. apply py_getitem_fmap. Qed.

Lemma height_values h g : height (values h g) = Store.height g.
Proof. unfold height, Store.height, values. by rewrite length_fmap. Qed.

Lemma width_values h g : width (values h g) = Store.width h g.
Proof.
  unfold width, Store.width. rewrite height_values.
  case_bool_decide; [|done]. rewrite py_getitem_values.
  destruct (py_getitem g 0) as [l|]; simpl; [|done].
  by destruct (h !! l).
Qed.

Lemma iterations_values h g : iterations (values h g) = Store.iterations h g.
Proof.
  unfold iterations, Store.iterations. by rewrite height_values, width_values.
Qed.

Lemma grid_get_values h g row col :
  grid_get (values h g) row col = Store.grid_get h g row col.
Proof.
  unfold grid_get, Store.grid_get. rewrite py_getitem_values.
  destruct (py_getitem g row) as [l|]; simpl; [|done].
  destruct (h !! l); simpl; [done|]. apply py_getitem_nil.
Qed.

Lemma values_insert h g pos l r :
  NoDup g → g !! pos = Some l → (l < length h)%nat →
  values (<[l:=r]> h) g = <[pos:=r]> (values h g).
Proof.
  intros Hnd Hpos Hl. unfold values. apply list_eq. intros i.
  rewrite list_lookup_fmap.
  destruct (decide (i = pos)) as [->|Hne].
  - rewrite Hpos. simpl. rewrite (list_lookup_insert_eq h) by done.
    rewrite list_lookup_insert_eq; [done|].
    rewrite length_fmap. by eapply lookup_lt_Some.
  - rewrite list_lookup_insert_ne, list_lookup_fmap by done.
    destruct (g !! i) as [x|] eqn:Hi; simpl; [|done].
    rewrite list_lookup_insert_ne; [done|].
    intros <-. apply Hne. by eapply NoDup_lookup.
Qed.

Lemma grid_set_values h g row col v :
  NoDup g →
  grid_set (values h g) row col v
  = (λ h', values h' g) <$> Store.grid_set h g row col v.
Proof.
  intros Hnd. unfold grid_set, Store.grid_set. rewrite py_getitem_values.
  destruct (py_getitem g row) as [l|] eqn:Hrow; simpl; [|done].
  destruct (h !! l) as [r|] eqn:Hl; simpl; [|by rewrite py_setitem_nil].
  destruct (py_setitem r col v) as [r'|]; simpl; [|done].
  destruct (py_getitem_position _ _ _ Hrow) as (pos & Hpos & Hset).
  rewrite (Hset _ (values h g) r') by (unfold values; by rewrite length_fmap).
  f_equal. symmetry. apply values_insert; [done..|].
  by eapply lookup_lt_Some.
Qed.

Lemma scan_neighbors_values h g original_shape ht w row col directions :
  ∀ queue visited,
  scan_neighbors (values h g) original_shape ht w row col directions
    queue visited
  = Store.scan_neighbors h g original_shape ht w row col directions
      queue visited.
Proof.
  induction directions as [|[dr dc] directions IH]; intros queue visited;
    [done|].
  simpl. rewrite grid_get_values. by rewrite !IH.
Qed.

Lemma scan_neighbors_boundary_values h g original_shape boundary_shape ht w
    row col directions :
  ∀ queue visited,
  scan_neighbors_boundary (values h g) original_shape boundary_shape ht w
    row col directions queue visited
  = Store.scan_neighbors_boundary h g original_shape boundary_shape ht w
      row col directions queue visited.
Proof.
  induction directions as [|[dr dc] directions IH]; intros queue visited;
    [done|].
  simpl. rewrite grid_get_values. by rewrite !IH.
Qed.

Lemma fill_loop_values directions original_shape new_shape ht w g fuel :
  NoDup g → ∀ h queue visited n,
  fill_loop fuel directions original_shape new_shape ht w (values h g)
    queue visited n
  = view_result g
      (Store.fill_loop fuel directions original_shape new_shape ht w h g
         queue visited n).
Proof.
  intros Hnd. induction fuel as [|fuel IH]; intros h queue visited n; [done|].
  simpl. destruct queue as [|[row col] queue]; [done|].
  rewrite grid_get_values.
  destruct (Store.grid_get h g row col) as [v|]; [|done].
  case_bool_decide; [|apply IH].
  rewrite grid_set_values by done.
  destruct (Store.grid_set h g row col new_shape) as [h1|]; simpl; [|done].
  rewrite scan_neighbors_values.
  destruct (Store.scan_neighbors _ _ _ _ _ _ _ _ _ _)
    as [[queue2 visited2]|]; [apply IH|done].
Qed.

Lemma fill_loop_boundary_values original_shape new_shape boundary_shape
    ht w g fuel :
  NoDup g → ∀ h queue visited n,
  fill_loop_boundary fuel original_shape new_shape boundary_shape ht w
    (values h g) queue visited n
  = view_result g
      (Store.fill_loop_boundary fuel original_shape new_shape boundary_shape
         ht w h g queue visited n).
Proof.
  intros Hnd. induction fuel as [|fuel IH]; intros h queue visited n; [done|].
  cbn [fill_loop_boundary Store.fill_loop_boundary].
  destruct queue as [|[row col] queue]; [done|].
  rewrite grid_get_values.
  destruct (Store.grid_get h g row col) as [v|]; [|done].
  case_bool_decide; [|apply IH].
  rewrite grid_set_values by done.
  destruct (Store.grid_set h g row col new_shape) as [h1|];
    cbn [fmap option_fmap option_map]; [|done].
  rewrite scan_neighbors_boundary_values.
  destruct (Store.scan_neighbors_boundary _ _ _ _ _ _ _ _ _ _ _)
    as [[queue2 visited2]|]; [apply IH|done].
Qed.

(** On a grid without shared rows, the functions over value grids give
    what the functions over the store give, read through the grid. *)
Lemma perform_flood_fill_refines h g row col new_shape :
  NoDup g →
  perform_flood_fill (values h g) row col new_shape
  = view_result g (Store.perform_flood_fill h g row col new_shape).
Proof.
  intros Hnd. unfold perform_flood_fill, Store.perform_flood_fill.
  rewrite height_values, width_values, grid_get_values, iterations_values.
  destruct (negb _); [done|].
  destruct (Store.grid_get h g row col) as [original_shape|]; [|done].
  case_bool_decide; [done|]. by apply fill_loop_values.
Qed.

Lemma flood_fill_diagonal_refines h g row col new_shape :
  NoDup g →
  flood_fill_diagonal (values h g) row col new_shape
  = view_result g (Store.flood_fill_diagonal h g row col new_shape).
Proof.
  intros Hnd. unfold flood_fill_diagonal, Store.flood_fill_diagonal.
  rewrite height_values, width_values, grid_get_values, iterations_values.
  destruct (negb _); [done|].
  destruct (Store.grid_get h g row col) as [original_shape|]; [|done].
  case_bool_decide; [done|]. by apply fill_loop_values.
Qed.

Lemma flood_fill_with_boundary_refines h g row col new_shape boundary_shape :
  NoDup g →
  flood_fill_with_boundary (values h g) row col new_shape boundary_shape
  = view_result g
      (Store.flood_fill_with_boundary h g row col new_shape boundary_shape).
Proof.
  intros Hnd.
  unfold flood_fill_with_boundary, Store.flood_fill_with_boundary.
  rewrite height_values, width_values, grid_get_values, iterations_values.
  destruct (negb _); [done|].
  destruct (Store.grid_get h g row col) as [original_shape|]; [|done].
  destruct (_ || _); [done|]. by apply fill_loop_boundary_values.
Qed.

(** Reading a result of the value functions back as a result of the store
    functions. *)
Lemma view_result_Some g r g' o :
  view_result g r = Some (g', o) →
  ∃ h', r = Some (h', o) ∧ values h' g = g'.
Proof.
  unfold view_result. destruct r as [[h' o']|]; simpl; [|done].
  intros [= <- <-]. by exists h'.
Qed.

(** ** Termination with shared rows *)

Lemma store_fill_loop_enough directions original_shape new_shape g0 g fuel :
  ∀ h queue visited n,
  (∀ p, p ∈ visited → in_bounds g0 p) →
  (length queue + Z.to_nat (height g0 * width g0) - size visited < fuel)%nat →
  is_Some (Store.fill_loop fuel directions original_shape new_shape
             (height g0) (width g0) h g queue visited n).
Proof.
  induction fuel as [|fuel IH]; intros h queue visited n Hbox Hfuel; [lia|].
  pose proof (size_in_bounds g0 visited Hbox) as Hsize.
  simpl. destruct queue as [|[row col] queue]; [done|].
  destruct (Store.grid_get h g row col) as [v|]; [|done].
  simpl in Hfuel. case_bool_decide; [|apply IH; [done|lia]].
  destruct (Store.grid_set h g row col new_shape) as [h1|]; [|done].
  rewrite <- scan_neighbors_values.
  destruct (scan_neighbors _ _ _ _ _ _ _ _ _) as [[queue2 visited2]|] eqn:Hscan;
    [|done].
  apply scan_neighbors_bound in Hscan as [Hbox2 Hlen]; [|done].
  pose proof (size_in_bounds g0 visited2 Hbox2).
  apply IH; [done|lia].
Qed.

Lemma store_fill_loop_boundary_enough original_shape new_shape boundary_shape
    g0 g fuel :
  ∀ h queue visited n,
  (∀ p, p ∈ visited → in_bounds g0 p) →
  (length queue + Z.to_nat (height g0 * width g0) - size visited < fuel)%nat →
  is_Some (Store.fill_loop_boundary fuel original_shape new_shape
             boundary_shape (height g0) (width g0) h g queue visited n).
Proof.
  induction fuel as [|fuel IH]; intros h queue visited n Hbox Hfuel; [lia|].
  pose proof (size_in_bounds g0 visited Hbox) as Hsize.
  cbn [Store.fill_loop_boundary].
  destruct queue as [|[row col] queue]; [done|].
  destruct (Store.grid_get h g row col) as [v|]; [|done].
  simpl in Hfuel. case_bool_decide; [|apply IH; [done|lia]].
  destruct (Store.grid_set h g row col new_shape) as [h1|]; [|done].
  rewrite <- scan_neighbors_boundary_values.
  destruct (scan_neighbors_boundary _ _ _ _ _ _ _ _ _ _)
    as [[queue2 visited2]|] eqn:Hscan; [|done].
  apply scan_neighbors_boundary_bound in Hscan as [Hbox2 Hlen]; [|done].
  pose proof (size_in_bounds g0 visited2 Hbox2).
  apply IH; [done|lia].
Qed.

(** X1 (termination). Called without animation ([animate] false or no
    visualizer, the defaults), on every grid, with rows of any lengths and
    row objects shared or not, and for every seed, replacement value and
    boundary value, each of the three functions ends, by returning a count
    or by raising [IndexError]: the [while] loop never needs more than
    [height * width + 1] iterations. *)
Theorem fill_ends_with_any_rows h g row col new_shape boundary_shape :
  is_Some (Store.perform_flood_fill h g row col new_shape) ∧
  is_Some (Store.flood_fill_diagonal h g row col new_shape) ∧
  is_Some (Store.flood_fill_with_boundary h g row col new_shape
             boundary_shape).
Proof.
  unfold Store.perform_flood_fill, Store.flood_fill_diagonal,
    Store.flood_fill_with_boundary.
  rewrite <- !(iterations_values h g), <- !(height_values h g),
    <- !(width_values h g).
  destruct (bool_decide (0 ≤ row < height (values h g))) eqn:Hr;
    [|by split_and!].
  destruct (bool_decide (0 ≤ col < width (values h g))) eqn:Hc;
    [|by split_and!].
  apply bool_decide_eq_true_1 in Hr, Hc. cbn [andb negb].
  assert (Hbox : ∀ p, p ∈ ({[ (row, col) ]} : gset coord) →
            in_bounds (values h g) p)
    by (by intros p ->%elem_of_singleton).
  assert (Hfuel : (length [(row, col)]
                   + Z.to_nat (height (values h g) * width (values h g))
                   - size ({[ (row, col) ]} : gset coord)
                   < iterations (values h g))%nat).
  { rewrite size_singleton. unfold iterations. simpl. lia. }
  destruct (Store.grid_get h g row col) as [original_shape|];
    [|by split_and!].
  split_and!.
  - destruct (bool_decide _); [done|]. by apply store_fill_loop_enough.
  - destruct (bool_decide _); [done|]. by apply store_fill_loop_enough.
  - destruct (_ || _); [done|]. by apply store_fill_loop_boundary_enough.
Qed.

(** ** The contract on grids whose rows are distinct objects, and how it
    fails on shared rows *)

Local Ltac concrete_nodup := apply (bool_decide_unpack _); vm_compute; exact I.

Local Ltac read_back H Hnd L :=
  rewrite L in H by exact Hnd;
  apply view_result_Some in H as (? & H & <-).

(** C1 (connectivity completeness), amended. On a rectangular grid whose
    rows are distinct objects, with an in-bounds seed and a replacement
    value different from the seed's value, [perform_flood_fill]
    (4 directions) and [flood_fill_diagonal] (8 directions) return, and
    afterwards every cell connected to the seed through cells that held the
    seed's original value holds the replacement value, and every other cell
    holds what it held before. *)
Theorem connectivity_completeness_distinct_rows h g row col
    original_shape new_shape :
  NoDup g →
  rectangular (values h g) → in_bounds (values h g) (row, col) →
  cell (values h g) (row, col) = Some original_shape →
  new_shape ≠ original_shape →
  (∃ h' n,
     Store.perform_flood_fill h g row col new_shape
     = Some (h', Returned n) ∧
     ∀ p,
       (connected cardinal_directions (values h g)
          (λ v, v = original_shape) (row, col) p
        → cell (values h' g) p = Some new_shape) ∧
       (¬ connected cardinal_directions (values h g)
            (λ v, v = original_shape) (row, col) p
        → cell (values h' g) p = cell (values h g) p)) ∧
  (∃ h' n,
     Store.flood_fill_diagonal h g row col new_shape
     = Some (h', Returned n) ∧
     ∀ p,
       (connected diagonal_directions (values h g)
          (λ v, v = original_shape) (row, col) p
        → cell (values h' g) p = Some new_shape) ∧
       (¬ connected diagonal_directions (values h g)
            (λ v, v = original_shape) (row, col) p
        → cell (values h' g) p = cell (values h g) p)).
Proof.
  intros Hnd Hrect Hin Hcell Hne.
  destruct (connectivity_completeness (values h g) row col original_shape
              new_shape Hrect Hin Hcell Hne)
    as [(g4 & n4 & Hrun4 & Hcells4) (g8 & n8 & Hrun8 & Hcells8)].
  read_back Hrun4 Hnd perform_flood_fill_refines.
  read_back Hrun8 Hnd flood_fill_diagonal_refines.
  split; by eexists _, _.
Qed.

Lemma connectivity_completeness_distinct_rows_witness :
  (∃ h' n,
     Store.perform_flood_fill scenario_grid three_rows 2 2 "O"
     = Some (h', Returned n) ∧
     ∀ p,
       (connected cardinal_directions (values scenario_grid three_rows)
          (λ v, v = "-"%string) (2, 2) p
        → cell (values h' three_rows) p = Some "O"%string) ∧
       (¬ connected cardinal_directions (values scenario_grid three_rows)
            (λ v, v = "-"%string) (2, 2) p
        → cell (values h' three_rows) p
          = cell (values scenario_grid three_rows) p)) ∧
  (∃ h' n,
     Store.flood_fill_diagonal scenario_grid three_rows 2 2 "O"
     = Some (h', Returned n) ∧
     ∀ p,
       (connected diagonal_directions (values scenario_grid three_rows)
          (λ v, v = "-"%string) (2, 2) p
        → cell (values h' three_rows) p = Some "O"%string) ∧
       (¬ connected diagonal_directions (values scenario_grid three_rows)
            (λ v, v = "-"%string) (2, 2) p
        → cell (values h' three_rows) p
          = cell (values scenario_grid three_rows) p)).
Proof.
  apply (connectivity_completeness_distinct_rows scenario_grid three_rows
           2 2 "-" "O").
  - concrete_nodup.
  - repeat constructor.
  - concrete_bounds.
  - reflexivity.
  - discriminate.
Defined.

(** C1 as stated fails where a row object stands at two positions. On
    [a = ['-']; grid = [a, ['X'], a]] with seed (0,0) and replacement "O",
    the cell (2,0) is not connected to the seed (the "X" of row 1 cuts it
    off), yet the call rewrites it: it is the cell (0,0) of the same row
    object. *)
Lemma shared_row_cut_off_cell_rewritten :
  rectangular (values shared_column_heap shared_column) ∧
  in_bounds (values shared_column_heap shared_column) (0, 0) ∧
  cell (values shared_column_heap shared_column) (0, 0) = Some "-"%string ∧
  ∃ h',
    Store.perform_flood_fill shared_column_heap shared_column 0 0 "O"
    = Some (h', Returned 1) ∧
    ¬ connected cardinal_directions (values shared_column_heap shared_column)
        (λ v, v = "-"%string) (0, 0) (2, 0) ∧
    cell (values shared_column_heap shared_column) (2, 0)
    = Some "-"%string ∧
    cell (values h' shared_column) (2, 0) = Some "O"%string.
Proof.
  split_and!; [repeat constructor|concrete_bounds|reflexivity|].
  eexists. split_and!; [reflexivity| |reflexivity|reflexivity].
  assert (Hseed : ∀ p,
            connected cardinal_directions
              (values shared_column_heap shared_column)
              (λ v, v = "-"%string) (0, 0) p → p = (0, 0)).
  { induction 1 as [|p d v Hp IH Hd Hin Hcell Hv]; [done|].
    subst p v. exfalso. unfold cardinal_directions in Hd.
    rewrite !elem_of_cons, elem_of_nil in Hd.
    destruct Hd as [->|[->|[->|[->|[]]]]];
      first [ by vm_compute in Hcell
            | unfold in_bounds in Hin; vm_compute in Hin;
              intuition congruence ]. }
  intros Hp%Hseed. discriminate.
Qed.

(** C2 (count correctness), amended. On a rectangular grid whose rows are
    distinct objects, with an in-bounds seed, each of the three functions
    returns the number of cells whose value the call changed. When the
    replacement value differs from the seed's original value, that number
    is the size of the component of the seed: under 4 directions for
    [perform_flood_fill], under 8 for [flood_fill_diagonal], and for
    [flood_fill_with_boundary] under 4 directions through the cells that
    hold the original value and not the boundary value (the case of an
    empty string as boundary value standing at the seed is left out). When
    the replacement value is the seed's original value, the returned number
    is 0. *)
Theorem count_correctness_distinct_rows h g row col original_shape new_shape
    boundary_shape :
  NoDup g →
  rectangular (values h g) → in_bounds (values h g) (row, col) →
  cell (values h g) (row, col) = Some original_shape →
  (∃ h' n,
     Store.perform_flood_fill h g row col new_shape
     = Some (h', Returned n) ∧
     n = Z.of_nat (length (changed_cells (values h g) (values h' g))) ∧
     (new_shape ≠ original_shape →
      component_size cardinal_directions (values h g)
        (λ v, v = original_shape) (row, col) n) ∧
     (new_shape = original_shape → n = 0)) ∧
  (∃ h' n,
     Store.flood_fill_diagonal h g row col new_shape
     = Some (h', Returned n) ∧
     n = Z.of_nat (length (changed_cells (values h g) (values h' g))) ∧
     (new_shape ≠ original_shape →
      component_size diagonal_directions (values h g)
        (λ v, v = original_shape) (row, col) n) ∧
     (new_shape = original_shape → n = 0)) ∧
  (∃ h' n,
     Store.flood_fill_with_boundary h g row col new_shape boundary_shape
     = Some (h', Returned n) ∧
     n = Z.of_nat (length (changed_cells (values h g) (values h' g))) ∧
     (new_shape ≠ original_shape →
      (boundary_shape = Some ""%string → original_shape ≠ ""%string) →
      component_size cardinal_directions (values h g)
        (λ v, v = original_shape ∧ Some v ≠ boundary_shape) (row, col) n) ∧
     (new_shape = original_shape → n = 0)).
Proof.
  intros Hnd Hrect Hin Hcell.
  destruct (count_correctness (values h g) row col original_shape new_shape
              boundary_shape Hrect Hin Hcell)
    as ((g4 & n4 & Hrun4 & Hch4 & Hsize4) & (g8 & n8 & Hrun8 & Hch8 & Hsize8)
        & (gb & nb & Hrunb & Hchb & Hsizeb)).
  assert (Hnoop : new_shape = original_shape → n4 = 0 ∧ n8 = 0 ∧ nb = 0).
  { intros ->.
    rewrite (perform_flood_fill_in_bounds _ _ _ _ _ Hin Hcell) in Hrun4.
    rewrite (flood_fill_diagonal_in_bounds _ _ _ _ _ Hin Hcell) in Hrun8.
    rewrite (flood_fill_with_boundary_in_bounds _ _ _ _ _ _ Hin Hcell),
      (perform_flood_fill_in_bounds _ _ _ _ _ Hin Hcell) in Hrunb.
    rewrite (bool_decide_eq_true_2 (original_shape = original_shape))
      in Hrun4, Hrun8, Hrunb by done.
    destruct (_ && _) in Hrunb; by simplify_eq. }
  read_back Hrun4 Hnd perform_flood_fill_refines.
  read_back Hrun8 Hnd flood_fill_diagonal_refines.
  read_back Hrunb Hnd flood_fill_with_boundary_refines.
  split_and!; eexists _, _; (split_and!; [done|done|done|]);
    intros Heq; by destruct (Hnoop Heq) as (? & ? & ?).
Qed.

Lemma count_correctness_distinct_rows_witness :
  (∃ h' n,
     Store.perform_flood_fill scenario_grid three_rows 2 2 "O"
     = Some (h', Returned n) ∧
     n = Z.of_nat (length (changed_cells (values scenario_grid three_rows)
                             (values h' three_rows))) ∧
     ("O"%string ≠ "-"%string →
      component_size cardinal_directions (values scenario_grid three_rows)
        (λ v, v = "-"%string) (2, 2) n) ∧
     ("O"%string = "-"%string → n = 0)) ∧
  (∃ h' n,
     Store.flood_fill_diagonal scenario_grid three_rows 2 2 "O"
     = Some (h', Returned n) ∧
     n = Z.of_nat (length (changed_cells (values scenario_grid three_rows)
                             (values h' three_rows))) ∧
     ("O"%string ≠ "-"%string →
      component_size diagonal_directions (values scenario_grid three_rows)
        (λ v, v = "-"%string) (2, 2) n) ∧
     ("O"%string = "-"%string → n = 0)) ∧
  (∃ h' n,
     Store.flood_fill_with_boundary scenario_grid three_rows 2 2 "O"
       (Some "X"%string)
     = Some (h', Returned n) ∧
     n = Z.of_nat (length (changed_cells (values scenario_grid three_rows)
                             (values h' three_rows))) ∧
     ("O"%string ≠ "-"%string →
      (Some "X"%string = Some ""%string → "-"%string ≠ ""%string) →
      component_size cardinal_directions (values scenario_grid three_rows)
        (λ v, v = "-"%string ∧ Some v ≠ Some "X"%string) (2, 2) n) ∧
     ("O"%string = "-"%string → n = 0)).
Proof.
  apply (count_correctness_distinct_rows scenario_grid three_rows 2 2
           "-" "O" (Some "X"%string)).
  - concrete_nodup.
  - repeat constructor.
  - concrete_bounds.
  - reflexivity.
Defined.

(** C2 as stated fails in two ways. Where the replacement value is the
    seed's value: on the one-cell grid holding "X", filled with "X", the
    call returns 0 while the component of the seed has one cell. Where a
    row object is shared: on [row = ['-', '-']; grid = [row, row]] with
    seed (0,0) and replacement "O" the call returns 2 while 4 cells
    changed (and the component has 4 cells). *)
Lemma count_fails_on_noop_and_on_shared_rows :
  (Store.perform_flood_fill [["X"%string]] [0%nat] 0 0 "X"
   = Some ([["X"%string]], Returned 0) ∧
   component_size cardinal_directions (values [["X"%string]] [0%nat])
     (λ v, v = "X"%string) (0, 0) 1 ∧
   ¬ component_size cardinal_directions (values [["X"%string]] [0%nat])
       (λ v, v = "X"%string) (0, 0) 0) ∧
  (rectangular (values shared_pair_heap shared_pair) ∧
   ∃ h',
     Store.perform_flood_fill shared_pair_heap shared_pair 0 0 "O"
     = Some (h', Returned 2) ∧
     length (changed_cells (values shared_pair_heap shared_pair)
               (values h' shared_pair)) = 4%nat).
Proof.
  split.
  - split; [reflexivity|]. exact (proj2 count_is_not_component_size_on_noop).
  - split; [repeat constructor|]. eexists. split; reflexivity.
Qed.

(** C8 (monotonicity), amended. On a rectangular grid whose rows are
    distinct objects, with an in-bounds seed, both [perform_flood_fill] and
    [flood_fill_diagonal], each run on the same initial grid, return, and
    the diagonal count is at least the cardinal count. On the 2x2
    checkerboard with seed (0,0) the cardinal count is 1 and the diagonal
    count is 2. *)
Theorem diagonal_count_ge_cardinal_distinct_rows :
  (∀ h g row col new_shape,
     NoDup g →
     rectangular (values h g) → in_bounds (values h g) (row, col) →
     ∃ h4 n4 h8 n8,
       Store.perform_flood_fill h g row col new_shape
       = Some (h4, Returned n4) ∧
       Store.flood_fill_diagonal h g row col new_shape
       = Some (h8, Returned n8) ∧
       n4 ≤ n8) ∧
  (Store.perform_flood_fill checkerboard [0; 1]%nat 0 0 "O"
   = Some ([["O"; "X"]; ["X"; "-"]]%string, Returned 1) ∧
   Store.flood_fill_diagonal checkerboard [0; 1]%nat 0 0 "O"
   = Some ([["O"; "X"]; ["X"; "O"]]%string, Returned 2)).
Proof.
  split; [|by split].
  intros h g row col new_shape Hnd Hrect Hin.
  destruct (proj1 diagonal_count_ge_cardinal (values h g) row col new_shape
              Hrect Hin) as (g4 & n4 & g8 & n8 & Hrun4 & Hrun8 & Hle).
  read_back Hrun4 Hnd perform_flood_fill_refines.
  read_back Hrun8 Hnd flood_fill_diagonal_refines.
  by eexists _, _, _, _.
Qed.

Lemma diagonal_count_ge_cardinal_distinct_rows_witness :
  ∃ h4 n4 h8 n8,
    Store.perform_flood_fill scenario_grid three_rows 2 2 "O"
    = Some (h4, Returned n4) ∧
    Store.flood_fill_diagonal scenario_grid three_rows 2 2 "O"
    = Some (h8, Returned n8) ∧
    n4 ≤ n8.
Proof.
  apply (proj1 diagonal_count_ge_cardinal_distinct_rows scenario_grid
           three_rows 2 2 "O").
  - concrete_nodup.
  - repeat constructor.
  - concrete_bounds.
Defined.

(** C8 as stated fails where a row object stands at two positions: on the
    rectangular grid of five rows [X-X, XX-, X--, X-X, X-X] whose first and
    fourth rows are one object, from the seed (1,2), the call with 4
    directions returns 5 and the call with 8 directions returns 4. *)
Lemma shared_rows_diagonal_count_smaller :
  rectangular (values shared_maze_heap shared_maze) ∧
  in_bounds (values shared_maze_heap shared_maze) (1, 2) ∧
  ∃ h4 h8,
    Store.perform_flood_fill shared_maze_heap shared_maze 1 2 "O"
    = Some (h4, Returned 5) ∧
    Store.flood_fill_diagonal shared_maze_heap shared_maze 1 2 "O"
    = Some (h8, Returned 4).
Proof.
  split_and!; [repeat constructor|concrete_bounds|].
  eexists _, _. split; reflexivity.
Qed.

(** X6 (the seed within a region). On a rectangular grid whose rows are
    distinct objects, a call seeded at any cell connected to [(row, col)]
    through cells holding the same value returns what the call seeded at
    [(row, col)] returns, and leaves the same grid. This holds for
    [perform_flood_fill] with 4 directions and for [flood_fill_diagonal]
    with 8. *)
Theorem same_region_same_result_distinct_rows h g row col row' col'
    original_shape new_shape :
  NoDup g → rectangular (values h g) →
  (connected cardinal_directions (values h g) (λ v, v = original_shape)
     (row, col) (row', col') →
   ∃ h1 h2 n,
     Store.perform_flood_fill h g row col new_shape
     = Some (h1, Returned n) ∧
     Store.perform_flood_fill h g row' col' new_shape
     = Some (h2, Returned n) ∧
     values h2 g = values h1 g) ∧
  (connected diagonal_directions (values h g) (λ v, v = original_shape)
     (row, col) (row', col') →
   ∃ h1 h2 n,
     Store.flood_fill_diagonal h g row col new_shape
     = Some (h1, Returned n) ∧
     Store.flood_fill_diagonal h g row' col' new_shape
     = Some (h2, Returned n) ∧
     values h2 g = values h1 g).
Proof.
  intros Hnd Hrect.
  destruct (same_region_same_result (values h g) row col row' col'
              original_shape new_shape Hrect) as [H4 H8].
  split; intros Hconn.
  - specialize (H4 Hconn).
    assert (Hin : in_bounds (values h g) (row, col)).
    { destruct (connected_seed_through _ _ _ _ _ Hconn) as (v & Hv & _).
      apply connected_sym in Hconn; [|apply cardinal_opposite].
      by eapply connected_in_bounds. }
    destruct (in_bounds_returns (values h g) row col new_shape None
                Hrect Hin) as ((g1 & n & Hrun) & _).
    rewrite Hrun in H4.
    read_back Hrun Hnd perform_flood_fill_refines.
    rewrite perform_flood_fill_refines in H4 by done.
    apply view_result_Some in H4 as (h2 & H4 & Heq).
    by eexists _, _, _.
  - specialize (H8 Hconn).
    assert (Hin : in_bounds (values h g) (row, col)).
    { destruct (connected_seed_through _ _ _ _ _ Hconn) as (v & Hv & _).
      apply connected_sym in Hconn; [|apply diagonal_opposite].
      by eapply connected_in_bounds. }
    destruct (in_bounds_returns (values h g) row col new_shape None
                Hrect Hin) as (_ & (g1 & n & Hrun) & _).
    rewrite Hrun in H8.
    read_back Hrun Hnd flood_fill_diagonal_refines.
    rewrite flood_fill_diagonal_refines in H8 by done.
    apply view_result_Some in H8 as (h2 & H8 & Heq).
    by eexists _, _, _.
Qed.

Lemma same_region_same_result_distinct_rows_witness :
  (∃ h1 h2 n,
     Store.perform_flood_fill scenario_grid three_rows 2 2 "O"
     = Some (h1, Returned n) ∧
     Store.perform_flood_fill scenario_grid three_rows 0 2 "O"
     = Some (h2, Returned n) ∧
     values h2 three_rows = values h1 three_rows) ∧
  (∃ h1 h2 n,
     Store.flood_fill_diagonal scenario_grid three_rows 2 2 "O"
     = Some (h1, Returned n) ∧
     Store.flood_fill_diagonal scenario_grid three_rows 0 2 "O"
     = Some (h2, Returned n) ∧
     values h2 three_rows = values h1 three_rows).
Proof.
  destruct (same_region_same_result_distinct_rows scenario_grid three_rows
              2 2 0 2 "-" "O") as [H4 H8].
  - concrete_nodup.
  - repeat constructor.
  - split; [apply H4|apply H8].
    + exact scenario_connected.
    + eapply connected_mono;
        [apply cardinal_diagonal| |exact scenario_connected]. done.
Defined.

(** X8 (4 directions inside 8). On a rectangular grid whose rows are
    distinct objects, with an in-bounds seed, every cell that
    [perform_flood_fill] changes is changed in the same way by
    [flood_fill_diagonal] run on the same initial grid. *)
Theorem cardinal_cells_in_diagonal_distinct_rows h g row col new_shape :
  NoDup g → rectangular (values h g) → in_bounds (values h g) (row, col) →
  ∃ h4 n4 h8 n8,
    Store.perform_flood_fill h g row col new_shape
    = Some (h4, Returned n4) ∧
    Store.flood_fill_diagonal h g row col new_shape
    = Some (h8, Returned n8) ∧
    ∀ p, cell (values h4 g) p ≠ cell (values h g) p →
         cell (values h8 g) p = cell (values h4 g) p.
Proof.
  intros Hnd Hrect Hin.
  destruct (cardinal_cells_in_diagonal (values h g) row col new_shape
              Hrect Hin) as (g4 & n4 & g8 & n8 & Hrun4 & Hrun8 & Hcells).
  read_back Hrun4 Hnd perform_flood_fill_refines.
  read_back Hrun8 Hnd flood_fill_diagonal_refines.
  by eexists _, _, _, _.
Qed.

Lemma cardinal_cells_in_diagonal_distinct_rows_witness :
  ∃ h4 n4 h8 n8,
    Store.perform_flood_fill checkerboard [0; 1]%nat 0 0 "O"
    = Some (h4, Returned n4) ∧
    Store.flood_fill_diagonal checkerboard [0; 1]%nat 0 0 "O"
    = Some (h8, Returned n8) ∧
    ∀ p, cell (values h4 [0; 1]%nat) p
         ≠ cell (values checkerboard [0; 1]%nat) p →
         cell (values h8 [0; 1]%nat) p = cell (values h4 [0; 1]%nat) p.
Proof.
  apply (cardinal_cells_in_diagonal_distinct_rows checkerboard [0; 1]%nat
           0 0 "O").
  - concrete_nodup.
  - repeat constructor.
  - concrete_bounds.
Defined.

(** X10 (containment by a non-empty boundary value). With a non-empty
    boundary value, on a rectangular grid whose rows are distinct objects,
    with an in-bounds seed, [flood_fill_with_boundary] returns and changes
    no cell that held the boundary value, and no cell that the seed reaches
    only across cells holding the boundary value. *)
Theorem boundary_containment_distinct_rows h g row col new_shape boundary :
  NoDup g → rectangular (values h g) → in_bounds (values h g) (row, col) →
  boundary ≠ ""%string →
  ∃ h' n,
    Store.flood_fill_with_boundary h g row col new_shape (Some boundary)
    = Some (h', Returned n) ∧
    (∀ p, cell (values h g) p = Some boundary →
          cell (values h' g) p = Some boundary) ∧
    (∀ p,
       ¬ connected cardinal_directions (values h g) (λ v, v ≠ boundary)
           (row, col) p →
       cell (values h' g) p = cell (values h g) p).
Proof.
  intros Hnd Hrect Hin Hb.
  destruct (boundary_containment (values h g) row col new_shape boundary
              Hrect Hin Hb) as (g' & n & Hrun & Hkept & Hring).
  read_back Hrun Hnd flood_fill_with_boundary_refines.
  by eexists _, _.
Qed.

Lemma boundary_containment_distinct_rows_witness :
  ∃ h' n,
    Store.flood_fill_with_boundary walled_grid three_rows 1 1 "O"
      (Some "#"%string)
    = Some (h', Returned n) ∧
    (∀ p, cell (values walled_grid three_rows) p = Some "#"%string →
          cell (values h' three_rows) p = Some "#"%string) ∧
    (∀ p,
       ¬ connected cardinal_directions (values walled_grid three_rows)
           (λ v, v ≠ "#"%string) (1, 1) p →
       cell (values h' three_rows) p
       = cell (values walled_grid three_rows) p).
Proof.
  apply (boundary_containment_distinct_rows walled_grid three_rows
           1 1 "O" "#").
  - concrete_nodup.
  - repeat constructor.
  - concrete_bounds.
  - discriminate.
Defined.

(** X13 (a grid of one value). On a rectangular grid whose rows are
    distinct objects and whose cells all hold the same value, filled from
    an in-bounds seed with another value, each of the two functions
    rewrites every cell and returns [height * width]. *)
Theorem uniform_grid_filled_entirely_distinct_rows h g row col v new_shape :
  NoDup g → rectangular (values h g) → in_bounds (values h g) (row, col) →
  (∀ q, in_bounds (values h g) q → cell (values h g) q = Some v) →
  new_shape ≠ v →
  (∃ h',
     Store.perform_flood_fill h g row col new_shape
     = Some (h', Returned (Store.height g * Store.width h g)) ∧
     ∀ q, in_bounds (values h g) q → cell (values h' g) q = Some new_shape) ∧
  (∃ h',
     Store.flood_fill_diagonal h g row col new_shape
     = Some (h', Returned (Store.height g * Store.width h g)) ∧
     ∀ q, in_bounds (values h g) q → cell (values h' g) q = Some new_shape).
Proof.
  intros Hnd Hrect Hin Hall Hne.
  destruct (uniform_grid_filled_entirely (values h g) row col v new_shape
              Hrect Hin Hall Hne)
    as [(g4 & Hrun4 & Hcells4) (g8 & Hrun8 & Hcells8)].
  rewrite height_values, width_values in Hrun4, Hrun8.
  read_back Hrun4 Hnd perform_flood_fill_refines.
  read_back Hrun8 Hnd flood_fill_diagonal_refines.
  split; by eexists.
Qed.

Lemma uniform_grid_filled_entirely_distinct_rows_witness :
  (∃ h',
     Store.perform_flood_fill blank_grid three_rows 1 1 "X"
     = Some (h', Returned (Store.height three_rows
                           * Store.width blank_grid three_rows)) ∧
     ∀ q, in_bounds (values blank_grid three_rows) q →
          cell (values h' three_rows) q = Some "X"%string) ∧
  (∃ h',
     Store.flood_fill_diagonal blank_grid three_rows 1 1 "X"
     = Some (h', Returned (Store.height three_rows
                           * Store.width blank_grid three_rows)) ∧
     ∀ q, in_bounds (values blank_grid three_rows) q →
          cell (values h' three_rows) q = Some "X"%string).
Proof.
  apply (uniform_grid_filled_entirely_distinct_rows blank_grid three_rows
           1 1 "-" "X").
  - concrete_nodup.
  - repeat constructor.
  - concrete_bounds.
  - apply (cell_all blank_grid); repeat constructor.
  - discriminate.
Defined.
